(** * go-lru-cache: a shallow embedding of [lru.go] and its properties

    The cache of [lru.go] is a [container/list] recency list of elements,
    each holding a pointer to an [entry], plus a Go map from keys to list
    elements.  Pointers are modelled as addresses into a store of entries,
    so that a handle kept by a caller (as [Get] does between its critical
    sections) may outlive the element's membership in the list.

    A Go panic (nil dereference) is the [None] of the option monad.

    Every access to the cache is made with [mu] held, so a program is free
    of data races and its executions are the interleavings of its critical
    sections: [Put], [Len] and [SetEvictionCallback] are one section each,
    [Get] is up to three (lines 41-46, 47-49 and 50-53 of [lru.go]). *)

From stdpp Require Import gmap strings list fin_maps.

(** ** Go's [container/list], as far as [lru.go] uses it *)

Module golist.

(** [*list.Element]: the address of an allocated element. *)
Abbreviation Element := nat (only parsing).

(** The elements linked in a list, front first.  An element's [list]
    field points to the list exactly while the element is linked, so
    [e.list == l] is membership here. *)
Abbreviation List := (list Element) (only parsing).

Definition New : List := [].

Definition Len (l : List) : Z := Z.of_nat (length l).

Definition Front (l : List) : option Element := head l.

Definition Back (l : List) : option Element := last l.

Definition linked (e : Element) (l : List) : bool := bool_decide (e ∈ l).

(** [l.remove(e)] for a linked element. *)
Definition unlink (e : Element) (l : List) : List :=
  filter (λ x, x ≠ e) l.

(** [PushFront] links a newly allocated element. *)
Definition PushFront (e : Element) (l : List) : List := e :: l.

(** [if e.list == l { l.remove(e) }] *)
Definition Remove (e : Element) (l : List) : List :=
  if linked e l then unlink e l else l.

(** [if e.list != l || l.root.next == e { return }; l.move(e, &l.root)] *)
Definition MoveToFront (e : Element) (l : List) : List :=
  if negb (linked e l) || bool_decide (Front l = Some e) then l
  else e :: unlink e l.

End golist.

(** The message of the only error [NewLRU] returns. *)
Definition error := string.
Definition errors_New (msg : string) : error := msg.
Definition InvalidCapacity : error :=
  errors_New "capacity must be greater than 0".

Section lru.
(** Keys: a [comparable] type whose [==] is equality (no NaN among the
    keys), so that the Go map is a finite map. *)
Context {K : Type} `{Countable K} {V : Type}.
(** The zero value of the value type ([var zero V]). *)
Variable zero : V.
(** What an eviction callback may act on: the world outside the cache.  A
    callback returns normally and does not call into the cache, which
    would block on [mu]. *)
Context {W : Type}.

Record entry := Entry { key : K; val : V }.

(** [func(key K, value V)], acting on the outside world. *)
Definition callback := K → V → W → W.

(** The [LRU] struct.  [mu] orders the critical sections and carries no
    data; [mem] is the store that the [*entry] of each element points
    into.  The field [list] is [lst] here. *)
Record LRU := MkLRU {
  cap : Z;
  lst : golist.List;
  mem : gmap golist.Element entry;
  idx : gmap K golist.Element;
  onEvict : option callback;
}.

Definition with_lst (f : golist.List → golist.List) (c : LRU) : LRU :=
  MkLRU (cap c) (f (lst c)) (mem c) (idx c) (onEvict c).
Definition with_mem
    (f : gmap golist.Element entry → gmap golist.Element entry) (c : LRU) :
    LRU :=
  MkLRU (cap c) (lst c) (f (mem c)) (idx c) (onEvict c).
Definition with_idx
    (f : gmap K golist.Element → gmap K golist.Element) (c : LRU) : LRU :=
  MkLRU (cap c) (lst c) (mem c) (f (idx c)) (onEvict c).
Definition with_onEvict (fn : option callback) (c : LRU) : LRU :=
  MkLRU (cap c) (lst c) (mem c) (idx c) fn.

(** The address the allocator hands out: one not in use. *)
Definition alloc (m : gmap golist.Element entry) : golist.Element :=
  fresh (dom m).

Definition NewLRU (capacity : Z) : option LRU * option error :=
  if decide (capacity ≤ 0)%Z then (None, Some InvalidCapacity)
  else (Some (MkLRU capacity golist.New ∅ ∅ None), None).

(** *** [Get], one critical section at a time *)

(** [el, ok := c.idx[key]], under the read lock. *)
Definition Get_lookup (c : LRU) (k : K) : option golist.Element := idx c !! k.

(** [c.list.MoveToFront(el)], under the write lock. *)
Definition Get_promote (c : LRU) (el : golist.Element) : LRU :=
  with_lst (golist.MoveToFront el) c.

(** [el.Value.( *entry[K, V]).val], under the read lock again. *)
Definition Get_read (c : LRU) (el : golist.Element) : option V :=
  val <$> mem c !! el.

(** [Get] with no other caller in between. *)
Definition Get (c : LRU) (k : K) : option (V * bool * LRU) :=
  match Get_lookup c k with
  | Some el =>
      let c' := Get_promote c el in
      v ← Get_read c' el;
      Some (v, true, c')
  | None => Some (zero, false, c)
  end.

(** *** [Put], one critical section

    The callback runs inside it, before [Put] returns. *)

Definition Put (c : LRU) (k : K) (v : V) (w : W) : option (LRU * W) :=
  match idx c !! k with
  | Some el =>
      (* el.Value.( *entry[K, V]).val = val; c.list.MoveToFront(el) *)
      ent ← mem c !! el;
      let c1 := with_mem <[el := Entry (key ent) v]> c in
      Some (with_lst (golist.MoveToFront el) c1, w)
  | None =>
      (* el := c.list.PushFront(&entry[K, V]{key: key, val: val}) *)
      let el := alloc (mem c) in
      let c1 :=
        with_lst (golist.PushFront el) (with_mem <[el := Entry k v]> c) in
      (* c.idx[key] = el *)
      let c2 := with_idx <[k := el]> c1 in
      if decide (golist.Len (lst c2) > cap c2)%Z then
        match golist.Back (lst c2) with
        | Some tail =>
            (* c.list.Remove(tail); kv := tail.Value.( *entry[K, V]) *)
            let c3 := with_lst (golist.Remove tail) c2 in
            kv ← mem c3 !! tail;
            (* delete(c.idx, kv.key) *)
            let c4 := with_idx (delete (key kv)) c3 in
            match onEvict c4 with
            | Some fn => Some (c4, fn (key kv) (val kv) w)
            | None => Some (c4, w)
            end
        | None => Some (c2, w)
        end
      else Some (c2, w)
  end.

Definition Len (c : LRU) : Z := golist.Len (lst c).

Definition SetEvictionCallback (c : LRU) (fn : option callback) : LRU :=
  with_onEvict fn c.

(** ** Callers *)

(** One call of the API. *)
Inductive call :=
  | CallGet (k : K)
  | CallPut (k : K) (v : V)
  | CallLen
  | CallSetEvictionCallback (fn : option callback).

(** A single caller: each call runs to its end before the next starts. *)
Definition do_call (cl : call) (s : LRU * W) : option (LRU * W) :=
  match cl with
  | CallGet k => r ← Get s.1 k; Some (r.2, s.2)
  | CallPut k v => Put s.1 k v s.2
  | CallLen => Some s
  | CallSetEvictionCallback fn => Some (SetEvictionCallback s.1 fn, s.2)
  end.

Fixpoint run (cls : list call) (s : LRU * W) : option (LRU * W) :=
  match cls with
  | [] => Some s
  | cl :: cls => s' ← do_call cl s; run cls s'
  end.

(** Several callers.  Every access to the cache is made under [mu], so
    an execution is an interleaving of critical sections.  A caller is
    either between calls or inside a [Get] that found its key, holding
    the element it looked up. *)
Inductive pc :=
  | AtCall
  | AtPromote (el : golist.Element)
  | AtRead (el : golist.Element).

Record caller := Caller {
  todo : list call;
  at_pc : pc;
  got : list (V * bool);
}.

(** The next critical section of a caller. *)
Definition section (t : caller) (s : LRU * W) : option (caller * (LRU * W)) :=
  match at_pc t with
  | AtCall =>
      match todo t with
      | [] => Some (t, s)
      | CallGet k :: rest =>
          match Get_lookup s.1 k with
          | Some el => Some (Caller rest (AtPromote el) (got t), s)
          | None => Some (Caller rest AtCall (got t ++ [(zero, false)]), s)
          end
      | cl :: rest => s' ← do_call cl s; Some (Caller rest AtCall (got t), s')
      end
  | AtPromote el =>
      Some (Caller (todo t) (AtRead el) (got t), (Get_promote s.1 el, s.2))
  | AtRead el =>
      v ← Get_read s.1 el;
      Some (Caller (todo t) AtCall (got t ++ [(v, true)]), s)
  end.

(** The scheduler picks the caller that enters its next section. *)
Definition sched (i : nat) (m : list caller * (LRU * W)) :
    option (list caller * (LRU * W)) :=
  match m.1 !! i with
  | Some t => r ← section t m.2; Some (<[i := r.1]> m.1, r.2)
  | None => Some m
  end.

Fixpoint interleave (sch : list nat) (m : list caller * (LRU * W)) :
    option (list caller * (LRU * W)) :=
  match sch with
  | [] => Some m
  | i :: sch => m' ← sched i m; interleave sch m'
  end.

(** ** The view of a cache as its entries, most recently used first *)

Definition entries (c : LRU) : list entry := omap (λ el, mem c !! el) (lst c).

Definition keys (c : LRU) : list K := key <$> entries c.

(** The value a key is bound to. *)
Definition bound (c : LRU) (k : K) : option V :=
  el ← idx c !! k; val <$> mem c !! el.

(** What the eviction callback, if any, does to the world when called
    on an entry. *)
Definition fire (fn : option callback) (kv : entry) (w : W) : W :=
  match fn with
  | Some f => f (key kv) (val kv) w
  | None => w
  end.

(** [Put(k', v')] in state [s] evicts [k]: [k] is resident before the
    call and no longer after it. *)
Definition evicts (s : LRU * W) (k' : K) (v' : V) (k : K) : Prop :=
  ∃ c' w', Put s.1 k' v' s.2 = Some (c', w') ∧
    is_Some (idx s.1 !! k) ∧ idx c' !! k = None.

Definition pair_entry (kv : K * V) : entry := Entry kv.1 kv.2.

(** One [Put] per pair, in order. *)
Definition puts (kvs : list (K * V)) : list call :=
  (λ kv, CallPut kv.1 kv.2) <$> kvs.

(** The keys a run of calls puts. *)
Definition put_keys (cls : list call) : gset K :=
  list_to_set (omap (λ cl, match cl with CallPut k _ => Some k | _ => None end)
                 cls).

(** The value of the last [Put] of a key in a run of calls, if any. *)
Fixpoint last_put (cls : list call) (k : K) : option V :=
  match cls with
  | [] => None
  | cl :: cls =>
      match last_put cls k with
      | Some v => Some v
      | None =>
          match cl with
          | CallPut k' v => if decide (k' = k) then Some v else None
          | _ => None
          end
      end
  end.

(** ** Invariants *)

(** The index and the recency list mirror each other. *)
Record wf (c : LRU) : Prop := {
  wf_nodup : NoDup (lst c);
  wf_alloc : ∀ el, el ∈ lst c → is_Some (mem c !! el);
  wf_idx : ∀ k el, idx c !! k = Some el →
    el ∈ lst c ∧ ∃ v, mem c !! el = Some (Entry k v);
  wf_lst : ∀ el ent, el ∈ lst c → mem c !! el = Some ent →
    idx c !! key ent = Some el;
}.

(** The capacity is positive and respected. *)
Definition bounded (c : LRU) : Prop := (1 ≤ cap c ∧ Len c ≤ cap c)%Z.

Definition inv (c : LRU) : Prop := wf c ∧ bounded c.

(** Between its critical sections a [Get] holds an allocated element. *)
Definition caller_ok (c : LRU) (t : caller) : Prop :=
  match at_pc t with
  | AtCall => True
  | AtPromote el | AtRead el => is_Some (mem c !! el)
  end.

(** The elements [l] hold the entries [es], in this order. *)
Definition holds (m : gmap golist.Element entry) (l : golist.List)
    (es : list entry) : Prop :=
  Forall2 (λ el ent, m !! el = Some ent) l es.

End lru.

(** ** The cache of the tests: strings keyed by integers

    The eviction callback appends what it is called with to a log, which
    is the world the callback acts on. *)

Definition recorder : callback (K:=Z) (V:=string) (W:=list (Z * string)) :=
  λ k v log, log ++ [(k, v)].

Definition new_cache (capacity : Z) (fn : option callback) :
    LRU (K:=Z) (V:=string) (W:=list (Z * string)) :=
  MkLRU capacity golist.New ∅ ∅ fn.

(** A cache of capacity 2 with the recorder set, after [Put(1, "one")] and
    [Put(2, "two")]. *)
Definition two_keys : LRU (K:=Z) (V:=string) (W:=list (Z * string)) :=
  MkLRU 2 [1; 0]
    {[0 := Entry 1%Z "one"; 1 := Entry 2%Z "two"]}
    {[1%Z := 0; 2%Z := 1]}
    (Some recorder).

(** A cache of capacity 1 with the recorder set, after [Put(1, "one")]. *)
Definition one_key : LRU (K:=Z) (V:=string) (W:=list (Z * string)) :=
  MkLRU 1 [0] {[0 := Entry 1%Z "one"]} {[1%Z := 0]} (Some recorder).

(** Two callers on [two_keys]: one gets key 1, the other puts key 3. *)
Definition racing : list (caller (K:=Z) (V:=string) (W:=list (Z * string))) :=
  [Caller [CallGet 1%Z] AtCall []; Caller [CallPut 3%Z "three"] AtCall []].

(** ** Facts about the recency list *)

Section golist_facts.
Implicit Types (e x : golist.Element) (l : golist.List).

Lemma elem_of_unlink x e l : x ∈ golist.unlink e l ↔ x ∈ l ∧ x ≠ e.
Proof. unfold golist.unlink. rewrite list_elem_of_filter. tauto. Qed.

Lemma unlink_unlinked e l : e ∉ l → golist.unlink e l = l.
Proof.
  unfold golist.unlink. induction l as [|x l IH]; intros Hnot; [done|].
  apply not_elem_of_cons in Hnot as [Hne Hnot].
  rewrite filter_cons_True by congruence. by rewrite IH.
Qed.

Lemma unlink_middle e l1 l2 :
  NoDup (l1 ++ e :: l2) → golist.unlink e (l1 ++ e :: l2) = l1 ++ l2.
Proof.
  intros Hnd. apply NoDup_app in Hnd as (_ & Hl1 & Hnd2).
  apply NoDup_cons in Hnd2 as [Hl2 _].
  assert (e ∉ l1) by (intros Hin; apply (Hl1 e Hin); left).
  unfold golist.unlink. rewrite filter_app, filter_cons_False by tauto.
  fold (golist.unlink e l1) (golist.unlink e l2).
  by rewrite !unlink_unlinked.
Qed.

Lemma linked_true e l : e ∈ l → golist.linked e l = true.
Proof. intros. unfold golist.linked. by apply bool_decide_eq_true. Qed.

Lemma linked_false e l : e ∉ l → golist.linked e l = false.
Proof. intros. unfold golist.linked. by apply bool_decide_eq_false. Qed.

Lemma MoveToFront_unlinked e l : e ∉ l → golist.MoveToFront e l = l.
Proof. intros. unfold golist.MoveToFront. by rewrite linked_false. Qed.

Lemma MoveToFront_middle e l1 l2 :
  NoDup (l1 ++ e :: l2) →
  golist.MoveToFront e (l1 ++ e :: l2) = e :: l1 ++ l2.
Proof.
  intros Hnd. unfold golist.MoveToFront.
  rewrite linked_true by (apply elem_of_app; right; left). simpl.
  case_bool_decide as Hfront.
  - destruct l1 as [|x l1]; [done|].
    simpl in Hfront. injection Hfront as ->.
    apply NoDup_cons in Hnd as [Hnot _].
    exfalso. apply Hnot, elem_of_app. right. left.
  - by rewrite unlink_middle.
Qed.

Lemma MoveToFront_linked e l :
  NoDup l → e ∈ l → golist.MoveToFront e l = e :: golist.unlink e l.
Proof.
  intros Hnd (l1 & l2 & ->)%list_elem_of_split.
  by rewrite MoveToFront_middle, unlink_middle.
Qed.

Lemma MoveToFront_perm e l : NoDup l → golist.MoveToFront e l ≡ₚ l.
Proof.
  intros Hnd. destruct (decide (e ∈ l)) as [Hin|Hnot].
  - apply list_elem_of_split in Hin as (l1 & l2 & ->).
    rewrite MoveToFront_middle by done. by rewrite Permutation_middle.
  - by rewrite MoveToFront_unlinked.
Qed.

Lemma MoveToFront_length e l :
  NoDup l → length (golist.MoveToFront e l) = length l.
Proof. intros Hnd. by rewrite MoveToFront_perm. Qed.

Lemma Remove_back e l :
  NoDup (l ++ [e]) → golist.Remove e (l ++ [e]) = l.
Proof.
  intros Hnd. unfold golist.Remove.
  rewrite linked_true by (apply elem_of_app; right; left).
  rewrite unlink_middle by done. apply app_nil_r.
Qed.

Lemma unlink_length e l :
  NoDup l → e ∈ l → S (length (golist.unlink e l)) = length l.
Proof.
  intros Hnd (l1 & l2 & ->)%list_elem_of_split.
  rewrite unlink_middle by done. rewrite !length_app. simpl. lia.
Qed.

End golist_facts.

(** ** Facts about the cache *)

Section lru_facts.
Context {K : Type} `{Countable K} {V W : Type} (zero : V).

Local Abbreviation LRU := (LRU (K:=K) (V:=V) (W:=W)).
Local Abbreviation entry := (entry (K:=K) (V:=V)).
Local Abbreviation callback := (callback (K:=K) (V:=V) (W:=W)).
Local Abbreviation call := (call (K:=K) (V:=V) (W:=W)).

Implicit Types (c : LRU) (k : K) (v : V) (w : W) (el : golist.Element).
Implicit Types (m : gmap golist.Element entry) (l : golist.List).
Implicit Types (ent : entry) (es : list entry).

Lemma alloc_fresh (m : gmap golist.Element entry) : m !! alloc m = None.
Proof. apply not_elem_of_dom. unfold alloc. apply is_fresh. Qed.

Lemma alloc_unlinked c : wf c → alloc (mem c) ∉ lst c.
Proof.
  intros Hwf Hin. apply (wf_alloc _ Hwf) in Hin as [ent Hent].
  by rewrite alloc_fresh in Hent.
Qed.

(** *** [Put] of a resident key *)

Lemma Put_resident c k v w el :
  wf c → idx c !! k = Some el →
  Put c k v w =
    Some (MkLRU (cap c) (el :: golist.unlink el (lst c))
            (<[el := Entry k v]> (mem c)) (idx c) (onEvict c), w).
Proof.
  intros Hwf Hidx. unfold Put. rewrite Hidx.
  destruct (wf_idx _ Hwf _ _ Hidx) as (Hin & v0 & Hmem).
  rewrite Hmem. simpl. unfold with_lst, with_mem. simpl.
  by rewrite (MoveToFront_linked _ _ (wf_nodup _ Hwf) Hin).
Qed.

(** *** [Put] of a key that is not resident *)

Lemma Put_room c k v w :
  idx c !! k = None → (Len c < cap c)%Z →
  Put c k v w =
    Some (MkLRU (cap c) (alloc (mem c) :: lst c)
            (<[alloc (mem c) := Entry k v]> (mem c))
            (<[k := alloc (mem c)]> (idx c)) (onEvict c), w).
Proof.
  intros Hidx Hlen. unfold Put. rewrite Hidx. simpl.
  unfold Len, golist.Len, golist.PushFront in *. simpl.
  case_decide; [lia|done].
Qed.

Lemma Put_full c k v w rest tail kv :
  wf c → idx c !! k = None → (cap c ≤ Len c)%Z →
  lst c = rest ++ [tail] → mem c !! tail = Some kv →
  Put c k v w =
    Some (MkLRU (cap c) (alloc (mem c) :: rest)
            (<[alloc (mem c) := Entry k v]> (mem c))
            (delete (key kv) (<[k := alloc (mem c)]> (idx c)))
            (onEvict c),
          fire (onEvict c) kv w).
Proof.
  intros Hwf Hidx Hlen Hlst Hmem.
  pose proof (alloc_unlinked c Hwf) as Hfresh.
  pose proof (wf_nodup _ Hwf) as Hnd. clear Hwf.
  unfold Put. rewrite Hidx.
  destruct c as [cp l m ix fn]. unfold Len, golist.Len in *.
  simpl in *. subst l. unfold golist.PushFront, golist.Back.
  case_decide; [|lia].
  change (alloc m :: rest ++ [tail]) with ((alloc m :: rest) ++ [tail]).
  rewrite last_snoc.
  assert (alloc m ≠ tail) as Hne.
  { intros Heq. apply Hfresh. rewrite Heq. apply elem_of_app. right. left. }
  rewrite lookup_insert_ne by done. rewrite Hmem. simpl.
  pose proof (Remove_back tail (alloc m :: rest)) as Hback.
  simpl in Hback. unfold with_idx, with_lst, with_mem. simpl.
  rewrite Hback by (by apply NoDup_cons).
  by destruct fn.
Qed.

(** *** [Get] *)

Lemma Get_miss c k : idx c !! k = None → Get zero c k = Some (zero, false, c).
Proof. intros Hidx. unfold Get, Get_lookup. by rewrite Hidx. Qed.

Lemma Get_hit c k el :
  wf c → idx c !! k = Some el →
  ∃ v, mem c !! el = Some (Entry k v) ∧
    Get zero c k =
      Some (v, true,
            MkLRU (cap c) (el :: golist.unlink el (lst c)) (mem c) (idx c)
              (onEvict c)).
Proof.
  intros Hwf Hidx. destruct (wf_idx _ Hwf _ _ Hidx) as (Hin & v & Hmem).
  exists v. split; [done|].
  unfold Get, Get_lookup, Get_read, Get_promote, with_lst. rewrite Hidx.
  simpl. rewrite Hmem. simpl.
  by rewrite (MoveToFront_linked _ _ (wf_nodup _ Hwf) Hin).
Qed.

(** *** The invariant is kept *)

Lemma wf_empty capacity fn : wf (MkLRU capacity golist.New ∅ ∅ fn : LRU).
Proof.
  split; simpl.
  - apply NoDup_nil_2.
  - intros el Hin. by apply elem_of_nil in Hin.
  - intros k el Hk. by rewrite lookup_empty in Hk.
  - intros el ent Hin. by apply elem_of_nil in Hin.
Qed.

Lemma wf_promote c el : wf c → wf (Get_promote c el).
Proof.
  intros [Hnd Hal Hix Hls].
  assert (∀ x, x ∈ golist.MoveToFront el (lst c) ↔ x ∈ lst c) as Hmem.
  { intros x. by rewrite (MoveToFront_perm el (lst c) Hnd). }
  split; simpl.
  - by rewrite (MoveToFront_perm el (lst c) Hnd).
  - intros x Hx%Hmem. by apply Hal.
  - intros k x Hk. rewrite Hmem. by apply Hix.
  - intros x ent Hx%Hmem. by apply Hls.
Qed.

Lemma wf_onEvict c fn : wf c → wf (SetEvictionCallback c fn).
Proof. intros [Hnd Hal Hix Hls]. by split. Qed.

(** Overwriting the value of an entry keeps its key. *)
Lemma wf_store c el k v v0 :
  wf c → mem c !! el = Some (Entry k v0) →
  wf (with_mem <[el := Entry k v]> c).
Proof.
  intros [Hnd Hal Hix Hls] Hel. split; simpl.
  - done.
  - intros x Hx. destruct (decide (el = x)) as [->|Hne].
    + rewrite lookup_insert_eq. by eexists.
    + rewrite lookup_insert_ne by done. by apply Hal.
  - intros k' x Hk. destruct (Hix _ _ Hk) as (Hin & v' & Hx).
    split; [done|]. destruct (decide (el = x)) as [->|Hne].
    + rewrite lookup_insert_eq. rewrite Hel in Hx.
      injection Hx as -> _. by eexists.
    + rewrite lookup_insert_ne by done. by eexists.
  - intros x ent Hx. destruct (decide (el = x)) as [->|Hne].
    + rewrite lookup_insert_eq. intros [= <-]. simpl.
      by apply (Hls x (Entry k v0)).
    + rewrite lookup_insert_ne by done. by apply Hls.
Qed.

(** Linking a new element for a key that is not resident. *)
Lemma wf_push c k v :
  wf c → idx c !! k = None →
  wf (MkLRU (cap c) (alloc (mem c) :: lst c)
        (<[alloc (mem c) := Entry k v]> (mem c))
        (<[k := alloc (mem c)]> (idx c)) (onEvict c)).
Proof.
  intros Hwf Hk. pose proof (alloc_unlinked c Hwf) as Hfresh.
  destruct Hwf as [Hnd Hal Hix Hls]. split; simpl.
  - by apply NoDup_cons.
  - intros x [->|Hx]%elem_of_cons.
    + rewrite lookup_insert_eq. by eexists.
    + rewrite lookup_insert_ne by (intros Heq; apply Hfresh; by rewrite Heq). by apply Hal.
  - intros k' x. destruct (decide (k = k')) as [->|Hne].
    + rewrite lookup_insert_eq. intros [= <-]. split; [left|].
      exists v. by rewrite lookup_insert_eq.
    + rewrite lookup_insert_ne by done. intros Hk'.
      destruct (Hix _ _ Hk') as (Hin & v' & Hx).
      split; [by right|]. exists v'.
      rewrite lookup_insert_ne by (intros Heq; apply Hfresh; by rewrite Heq). done.
  - intros x ent [->|Hx]%elem_of_cons.
    + rewrite lookup_insert_eq. intros [= <-]. simpl.
      by rewrite lookup_insert_eq.
    + rewrite lookup_insert_ne by (intros Heq; apply Hfresh; by rewrite Heq). intros Hent.
      pose proof (Hls _ _ Hx Hent) as Hkey.
      rewrite lookup_insert_ne by (intros ->; congruence). done.
Qed.

(** Unlinking the back element and dropping its key from the index. *)
Lemma wf_evict c rest tail kv :
  wf c → lst c = rest ++ [tail] → mem c !! tail = Some kv →
  wf (MkLRU (cap c) rest (mem c) (delete (key kv) (idx c)) (onEvict c)).
Proof.
  intros [Hnd Hal Hix Hls] Hlst Hkv. rewrite Hlst in *.
  apply NoDup_app in Hnd as (Hrest & Hdisj & _).
  assert (tail ∉ rest) as Htail.
  { intros Hin. apply (Hdisj _ Hin). left. }
  split; simpl.
  - done.
  - intros x Hx. apply Hal, elem_of_app. by left.
  - intros k x Hk. apply lookup_delete_Some in Hk as [Hne Hk].
    destruct (Hix _ _ Hk) as (Hin & v & Hx). split; [|by eexists].
    apply elem_of_app in Hin as [Hin|Hin]; [done|].
    apply list_elem_of_singleton in Hin as ->.
    rewrite Hkv in Hx. injection Hx as ->. done.
  - intros x ent Hx Hent.
    assert (idx c !! key ent = Some x) as Hkey.
    { apply Hls; [|done]. apply elem_of_app. by left. }
    rewrite lookup_delete_ne; [done|]. intros Heq.
    assert (idx c !! key kv = Some tail) as Hkey'.
    { apply Hls; [|done]. apply elem_of_app. right. left. }
    rewrite Heq, Hkey in Hkey'. injection Hkey' as ->. done.
Qed.

(** [Put] never panics on a well-formed cache, and keeps it so. *)
Lemma Put_wf c k v w :
  wf c →
  ∃ c' w', Put c k v w = Some (c', w') ∧ wf c' ∧
    cap c' = cap c ∧ onEvict c' = onEvict c.
Proof.
  intros Hwf. destruct (idx c !! k) as [el|] eqn:Hidx.
  - rewrite (Put_resident c k v w el Hwf Hidx).
    destruct (wf_idx _ Hwf _ _ Hidx) as (Hin & v0 & Hmem).
    eexists _, _. split; [done|]. split; [|done].
    pose proof (wf_promote _ el (wf_store c el k v v0 Hwf Hmem)) as Hwf'.
    unfold Get_promote, with_lst, with_mem in Hwf'. simpl in Hwf'.
    by rewrite (MoveToFront_linked _ _ (wf_nodup _ Hwf) Hin) in Hwf'.
  - pose proof (wf_push c k v Hwf Hidx) as Hwf2.
    unfold Put. rewrite Hidx. simpl.
    unfold with_idx, with_lst, with_mem, golist.PushFront. simpl.
    case_decide; [|by eexists _, _].
    destruct (golist.Back _) as [tail|] eqn:Hback; [|by eexists _, _].
    apply last_Some in Hback as [rest Hrest].
    assert (tail ∈ alloc (mem c) :: lst c) as Hin.
    { rewrite Hrest. apply elem_of_app. right. left. }
    destruct (wf_alloc _ Hwf2 tail Hin) as [kv Hkv]. simpl in Hkv.
    rewrite Hkv. simpl.
    pose proof (wf_evict _ rest tail kv Hwf2 Hrest Hkv) as Hwf4.
    simpl in Hwf4. rewrite Hrest.
    rewrite Remove_back by (rewrite <- Hrest; apply (wf_nodup _ Hwf2)).
    destruct (onEvict c); by eexists _, _.
Qed.

Lemma wf_back c :
  wf c → (1 ≤ Len c)%Z →
  ∃ rest tail kv, lst c = rest ++ [tail] ∧ mem c !! tail = Some kv.
Proof.
  intros Hwf Hlen. unfold Len, golist.Len in Hlen.
  destruct (last (lst c)) as [tail|] eqn:Hlast.
  - apply last_Some in Hlast as [rest Hrest].
    destruct (wf_alloc _ Hwf tail) as [kv Hkv].
    { rewrite Hrest. apply elem_of_app. right. left. }
    by exists rest, tail, kv.
  - apply last_None in Hlast. rewrite Hlast in Hlen. simpl in Hlen. lia.
Qed.

Lemma Put_bounded c k v w c' w' :
  wf c → bounded c → Put c k v w = Some (c', w') → bounded c'.
Proof.
  intros Hwf [Hcap Hlen] HPut. unfold bounded.
  destruct (idx c !! k) as [el|] eqn:Hidx.
  - rewrite (Put_resident c k v w el Hwf Hidx) in HPut.
    injection HPut as <- _. unfold Len, golist.Len in *. simpl.
    destruct (wf_idx _ Hwf _ _ Hidx) as (Hin & _).
    rewrite (unlink_length _ _ (wf_nodup _ Hwf) Hin). lia.
  - destruct (decide (Len c < cap c)%Z) as [Hroom|Hfull].
    + rewrite (Put_room c k v w Hidx Hroom) in HPut.
      injection HPut as <- _. unfold Len, golist.Len in *. simpl in *. lia.
    + destruct (wf_back c Hwf) as (rest & tail & kv & Hrest & Hkv); [lia|].
      rewrite (Put_full c k v w rest tail kv Hwf Hidx) in HPut
        by (done || lia).
      injection HPut as <- _. unfold Len, golist.Len in *. simpl in *.
      rewrite Hrest, length_app in Hlen. simpl in Hlen. lia.
Qed.

(** *** Runs of a single caller *)

Lemma do_call_inv cl c w :
  inv c →
  ∃ c' w', do_call zero cl (c, w) = Some (c', w') ∧ inv c' ∧
    cap c' = cap c.
Proof.
  intros [Hwf Hb]. destruct cl as [k|k v| |fn]; simpl.
  - destruct (idx c !! k) as [el|] eqn:Hidx.
    + destruct (Get_hit c k el Hwf Hidx) as (v & Hmem & ->). simpl.
      eexists _, _. split; [done|]. split; [|done].
      pose proof (wf_promote c el Hwf) as Hwf'.
      destruct (wf_idx _ Hwf _ _ Hidx) as (Hin & _).
      unfold Get_promote, with_lst in Hwf'.
      rewrite (MoveToFront_linked _ _ (wf_nodup _ Hwf) Hin) in Hwf'.
      split; [done|]. destruct Hb as [Hcap Hlen]. split; [done|].
      unfold Len, golist.Len in *. simpl.
      rewrite (unlink_length _ _ (wf_nodup _ Hwf) Hin). done.
    + rewrite (Get_miss c k Hidx). simpl. by eexists _, _.
  - destruct (Put_wf c k v w Hwf) as (c' & w' & HPut & Hwf' & Hcap & _).
    exists c', w'. split; [done|]. split; [|done].
    split; [done|]. by apply (Put_bounded c k v w c' w').
  - by eexists _, _.
  - eexists _, _. split; [done|]. split; [|done].
    split; [by apply wf_onEvict|done].
Qed.

Lemma run_inv cls c w :
  inv c →
  ∃ c' w', run zero cls (c, w) = Some (c', w') ∧ inv c' ∧ cap c' = cap c.
Proof.
  revert c w. induction cls as [|cl cls IH]; intros c w Hinv.
  - by exists c, w.
  - destruct (do_call_inv cl c w Hinv) as (c1 & w1 & Hcall & Hinv1 & Hcap1).
    destruct (IH c1 w1 Hinv1) as (c' & w' & Hrun & Hinv' & Hcap').
    exists c', w'. simpl. rewrite Hcall. simpl.
    split; [done|]. split; [done|]. congruence.
Qed.

Lemma run_app cls1 cls2 (s : LRU * W) :
  run zero (cls1 ++ cls2) s = run zero cls1 s ≫= run zero cls2.
Proof.
  revert s. induction cls1 as [|cl cls1 IH]; intros s; [done|].
  simpl. destruct (do_call zero cl s) as [s'|]; [|done]. apply IH.
Qed.

Lemma NewLRU_ok capacity :
  (1 ≤ capacity)%Z →
  NewLRU capacity = (Some (MkLRU capacity golist.New ∅ ∅ None : LRU), None).
Proof. intros Hcap. unfold NewLRU. case_decide; [lia|done]. Qed.

Lemma NewLRU_inv capacity c :
  NewLRU capacity = (Some c, None) →
  c = MkLRU capacity golist.New ∅ ∅ None ∧ inv c ∧ (1 ≤ capacity)%Z.
Proof.
  unfold NewLRU. case_decide; [done|]. intros [= <-].
  split; [done|]. split; [|lia]. split; [apply wf_empty|].
  unfold bounded, Len, golist.Len. simpl. lia.
Qed.

(** *** The entries of a cache *)

Lemma holds_omap (m : gmap golist.Element entry) l es :
  holds m l es → omap (λ el, m !! el) l = es.
Proof.
  unfold holds. induction 1 as [|el ent l es' Hel _ IH]; [done|].
  simpl. rewrite Hel. f_equal. exact IH.
Qed.

Lemma holds_entries c es : holds (mem c) (lst c) es → entries c = es.
Proof. apply holds_omap. Qed.

Lemma wf_holds c : wf c → holds (mem c) (lst c) (entries c).
Proof.
  intros Hwf. pose proof (wf_alloc _ Hwf) as Hal.
  unfold entries, holds. induction (lst c) as [|el l IH]; [constructor|].
  destruct (Hal el) as [ent Hent]; [left|]. simpl. rewrite Hent.
  constructor; [done|]. apply IH. intros x Hx. apply Hal. by right.
Qed.

Lemma holds_insert m l es el ent :
  el ∉ l → holds m l es → holds (<[el := ent]> m) l es.
Proof.
  unfold holds. intros Hnot Hes. induction Hes as [|x e l es' Hx _ IH].
  - constructor.
  - apply not_elem_of_cons in Hnot as [Hne Hnot].
    constructor; [by rewrite lookup_insert_ne|by apply IH].
Qed.

Lemma entries_length c : wf c → length (entries c) = length (lst c).
Proof. intros Hwf. symmetry. apply (Forall2_length _ _ _ (wf_holds c Hwf)). Qed.

Lemma elem_of_keys c k :
  wf c → k ∈ keys c ↔ is_Some (idx c !! k).
Proof.
  intros Hwf. pose proof (wf_holds c Hwf) as Hes. unfold keys. split.
  - intros (ent & -> & Hent)%list_elem_of_fmap.
    apply list_elem_of_lookup in Hent as [i Hi].
    destruct (Forall2_lookup_r _ _ _ _ _ Hes Hi) as (el & Hel & Hmem).
    exists el. apply (wf_lst _ Hwf); [|done].
    apply list_elem_of_lookup. by exists i.
  - intros [el Hel]. destruct (wf_idx _ Hwf _ _ Hel) as (Hin & v & Hmem).
    apply list_elem_of_lookup in Hin as [i Hi].
    destruct (Forall2_lookup_l _ _ _ _ _ Hes Hi) as (ent & Hent & Hmem').
    apply list_elem_of_fmap. exists ent. split.
    + rewrite Hmem in Hmem'. by injection Hmem' as <-.
    + apply list_elem_of_lookup. by exists i.
Qed.

Lemma keys_NoDup c : wf c → NoDup (keys c).
Proof.
  intros Hwf. pose proof (wf_holds c Hwf) as Hes.
  pose proof (wf_nodup _ Hwf) as Hnd. pose proof (wf_lst _ Hwf) as Hls.
  unfold keys. revert Hes Hnd Hls. generalize (entries c), (lst c).
  intros es l Hes. unfold holds in Hes.
  induction Hes as [|el ent l es Hel Hes IH]; intros Hnd Hls.
  - constructor.
  - apply NoDup_cons in Hnd as [Hnot Hnd]. simpl. apply NoDup_cons. split.
    + intros (ent' & Hkey & Hent')%list_elem_of_fmap.
      apply list_elem_of_lookup in Hent' as [i Hi].
      destruct (Forall2_lookup_r _ _ _ _ _ Hes Hi) as (el' & Hel' & Hmem').
      assert (el' ∈ l) as Hin by (apply list_elem_of_lookup; by exists i).
      assert (idx c !! key ent' = Some el') as H1.
      { apply Hls; [by right|done]. }
      assert (idx c !! key ent = Some el) as H2.
      { apply Hls; [left|done]. }
      rewrite <- Hkey, H2 in H1. injection H1 as ->. done.
    + apply IH; [done|]. intros x e Hx. apply Hls. by right.
Qed.

(** The entries split where the elements do. *)
Lemma holds_split m l es1 e es2 :
  holds m l (es1 ++ e :: es2) →
  ∃ l1 el l2, l = l1 ++ el :: l2 ∧ holds m l1 es1 ∧ m !! el = Some e ∧
    holds m l2 es2.
Proof.
  unfold holds. intros (l1 & l' & H1 & H2 & ->)%Forall2_app_inv_r.
  apply Forall2_cons_inv_r in H2 as (el & l2 & Hel & H2 & ->).
  by exists l1, el, l2.
Qed.

Lemma holds_unlinked m l es el : holds m l es → m !! el = None → el ∉ l.
Proof.
  unfold holds. intros Hes Hnone Hin.
  apply list_elem_of_lookup in Hin as [i Hi].
  destruct (Forall2_lookup_l _ _ _ _ _ Hes Hi) as (ent & _ & Hent).
  by rewrite Hnone in Hent.
Qed.

(** *** The cache as a list of entries: what each call does to it *)

Lemma view_Put_room c k v w :
  wf c → idx c !! k = None → (Len c < cap c)%Z →
  ∃ c', Put c k v w = Some (c', w) ∧ wf c' ∧
    entries c' = Entry k v :: entries c ∧
    cap c' = cap c ∧ onEvict c' = onEvict c.
Proof.
  intros Hwf Hidx Hroom. eexists. split; [by apply Put_room|].
  split; [by apply wf_push|]. split; [|done].
  apply holds_entries. simpl. constructor; [by rewrite lookup_insert_eq|].
  apply holds_insert; [by apply alloc_unlinked|by apply wf_holds].
Qed.

Lemma view_Put_full c k v w es e :
  wf c → idx c !! k = None → (cap c ≤ Len c)%Z → entries c = es ++ [e] →
  ∃ c', Put c k v w = Some (c', fire (onEvict c) e w) ∧ wf c' ∧
    entries c' = Entry k v :: es ∧
    cap c' = cap c ∧ onEvict c' = onEvict c.
Proof.
  intros Hwf Hidx Hfull Hes. pose proof (wf_holds c Hwf) as Hholds.
  rewrite Hes in Hholds.
  apply holds_split in Hholds as (rest & tail & l2 & Hlst & Hrest & Htail & Hl2).
  apply Forall2_nil_inv_r in Hl2 as ->.
  pose proof (Put_full c k v w rest tail e Hwf Hidx Hfull Hlst Htail) as HPut.
  destruct (Put_wf c k v w Hwf) as (c' & w' & HPut' & Hwf' & _).
  rewrite HPut in HPut'. injection HPut' as <- <-.
  eexists. split; [exact HPut|]. split; [done|]. split; [|done].
  apply holds_entries. simpl. constructor; [by rewrite lookup_insert_eq|].
  apply holds_insert; [|done].
  apply (holds_unlinked (mem c) rest es); [done|apply alloc_fresh].
Qed.

Lemma view_Get_hit c es1 e es2 :
  wf c → entries c = es1 ++ e :: es2 →
  ∃ c', Get zero c (key e) = Some (val e, true, c') ∧ wf c' ∧
    entries c' = e :: es1 ++ es2 ∧
    cap c' = cap c ∧ onEvict c' = onEvict c.
Proof.
  intros Hwf Hes. pose proof (wf_holds c Hwf) as Hholds.
  rewrite Hes in Hholds.
  apply holds_split in Hholds as (l1 & el & l2 & Hlst & Hl1 & Hel & Hl2).
  assert (idx c !! key e = Some el) as Hidx.
  { apply (wf_lst _ Hwf); [|done]. rewrite Hlst.
    apply elem_of_app. right. left. }
  destruct (Get_hit c (key e) el Hwf Hidx) as (v & Hmem & HGet).
  rewrite Hel in Hmem. injection Hmem as Hmem.
  pose proof (wf_promote c el Hwf) as Hwf'.
  unfold Get_promote, with_lst in Hwf'.
  pose proof (wf_nodup _ Hwf) as Hnd. rewrite Hlst in *.
  rewrite MoveToFront_middle in Hwf' by done.
  rewrite unlink_middle in HGet by done.
  eexists. split; [rewrite HGet; by rewrite Hmem|].
  split; [done|]. split; [|done].
  apply holds_entries. simpl. constructor; [done|].
  by apply Forall2_app.
Qed.

Lemma wf_Len c : wf c → Len c = Z.of_nat (length (entries c)).
Proof. intros Hwf. unfold Len, golist.Len. by rewrite entries_length. Qed.

(** Filling a cache that has room for all of [kvs]. *)
Lemma run_puts_room kvs c w :
  wf c → NoDup kvs.*1 → (∀ k, k ∈ kvs.*1 → k ∉ keys c) →
  (Len c + Z.of_nat (length kvs) ≤ cap c)%Z →
  ∃ c', run zero (puts kvs) (c, w) = Some (c', w) ∧ wf c' ∧
    entries c' = reverse (pair_entry <$> kvs) ++ entries c ∧
    cap c' = cap c ∧ onEvict c' = onEvict c.
Proof.
  revert c. induction kvs as [|[k v] kvs IH]; intros c Hwf Hnd Hnew Hlen.
  - by exists c.
  - simpl in Hnd. apply NoDup_cons in Hnd as [Hk Hnd].
    assert (idx c !! k = None) as Hidx.
    { apply eq_None_not_Some. rewrite <- (elem_of_keys c k Hwf).
      apply Hnew. left. }
    destruct (view_Put_room c k v w Hwf Hidx)
      as (c1 & HPut & Hwf1 & Hes1 & Hcap1 & Hfn1).
    { simpl in Hlen. lia. }
    destruct (IH c1 Hwf1 Hnd) as (c' & Hrun & Hwf' & Hes' & Hcap' & Hfn').
    { intros k0 Hk0. unfold keys. rewrite Hes1. simpl.
      apply not_elem_of_cons. split; [by intros ->|].
      apply Hnew. by right. }
    { rewrite (wf_Len c1 Hwf1), Hes1, Hcap1. rewrite (wf_Len c Hwf) in Hlen.
      simpl in *. lia. }
    exists c'. simpl. rewrite HPut. simpl. split; [done|]. split; [done|].
    split; [|split; congruence].
    rewrite Hes', Hes1, reverse_cons, <- app_assoc. done.
Qed.

Lemma keys_pair_entry (kvs : list (K * V)) :
  key <$> (pair_entry <$> kvs) = kvs.*1.
Proof. rewrite <- list_fmap_compose. by apply list_fmap_ext. Qed.

(** A cache of capacity [length kvs], after the callback is set and the
    pairs are put. *)
Lemma run_fill capacity c0 fn kvs w :
  NewLRU capacity = (Some c0, None) →
  Z.of_nat (length kvs) = capacity → NoDup kvs.*1 →
  ∃ c, run zero (CallSetEvictionCallback fn :: puts kvs) (c0, w)
         = Some (c, w) ∧
    wf c ∧ entries c = reverse (pair_entry <$> kvs) ∧
    cap c = capacity ∧ onEvict c = fn.
Proof.
  intros (-> & [Hwf _] & _)%NewLRU_inv Hlen Hnd.
  destruct (run_puts_room kvs (SetEvictionCallback
              (MkLRU capacity golist.New ∅ ∅ None) fn) w)
    as (c & Hrun & Hwf' & Hes & Hcap & Hfn).
  - by apply wf_onEvict.
  - done.
  - intros k _. unfold keys, entries. simpl. apply not_elem_of_nil.
  - unfold Len, golist.Len. simpl. lia.
  - exists c. split; [exact Hrun|]. split; [done|].
    split; [|done]. rewrite Hes. unfold entries. simpl. apply app_nil_r.
Qed.

(** In a full cache, [Put] of a new key evicts the key of the last
    entry. *)
Lemma evicts_back c k' v' w es e :
  wf c → (1 ≤ cap c)%Z → (cap c ≤ Len c)%Z → k' ∉ keys c →
  entries c = es ++ [e] →
  evicts (c, w) k' v' (key e) ∧
  ∃ c', Put c k' v' w = Some (c', fire (onEvict c) e w) ∧
    keys c' = k' :: (key <$> es).
Proof.
  intros Hwf Hcap Hfull Hnew Hes.
  assert (idx c !! k' = None) as Hidx.
  { apply eq_None_not_Some. by rewrite <- (elem_of_keys c k' Hwf). }
  destruct (view_Put_full c k' v' w es e Hwf Hidx Hfull Hes)
    as (c' & HPut & Hwf' & Hes' & _).
  assert (keys c' = k' :: (key <$> es)) as Hkeys.
  { unfold keys. by rewrite Hes'. }
  pose proof (keys_NoDup c Hwf) as Hnd. unfold keys in Hnd.
  rewrite Hes, fmap_app in Hnd. simpl in Hnd.
  apply NoDup_app in Hnd as (_ & Hdisj & _).
  assert (key e ∈ keys c) as Hin.
  { unfold keys. rewrite Hes, fmap_app. apply elem_of_app. right. left. }
  split; [|by exists c'].
  exists c', (fire (onEvict c) e w). split; [exact HPut|]. simpl.
  split; [by apply (elem_of_keys c (key e) Hwf)|].
  apply eq_None_not_Some. rewrite <- (elem_of_keys c' (key e) Hwf'), Hkeys.
  apply not_elem_of_cons. split; [by intros <-|].
  intros Hin'. apply (Hdisj _ Hin'). left.
Qed.

(** *** Several callers *)

(** No call frees an element: a handle stays allocated. *)
Lemma Put_keeps_alloc c k v w c' w' el :
  Put c k v w = Some (c', w') →
  is_Some (mem c !! el) → is_Some (mem c' !! el).
Proof.
  assert (∀ x ent, is_Some (mem c !! el) →
            is_Some (<[x := ent]> (mem c) !! el)) as Hins.
  { intros x ent Hel. rewrite lookup_insert. by case_decide. }
  unfold Put. destruct (idx c !! k) as [x|].
  - destruct (mem c !! x) as [ent|]; [|done]. simpl.
    intros [= <- _]. simpl. apply Hins.
  - simpl. case_decide.
    + destruct (golist.Back _) as [tail|].
      * destruct (_ !! tail) as [kv|]; [|done]. simpl.
        destruct (onEvict c); intros [= <- _]; simpl; apply Hins.
      * intros [= <- _]. simpl. apply Hins.
    + intros [= <- _]. simpl. apply Hins.
Qed.

Lemma do_call_keeps_alloc cl c w c' w' el :
  do_call zero cl (c, w) = Some (c', w') →
  is_Some (mem c !! el) → is_Some (mem c' !! el).
Proof.
  destruct cl as [k|k v| |fn]; simpl.
  - unfold Get, Get_read, Get_promote.
    destruct (Get_lookup c k) as [x|]; simpl.
    + destruct (mem c !! x); [|done]. simpl. by intros [= <- _].
    + by intros [= <- _].
  - apply Put_keeps_alloc.
  - by intros [= <- _].
  - by intros [= <- _].
Qed.

(** Whatever a caller is at, its next critical section runs without a
    panic and keeps the cache well formed and within its capacity. *)
Lemma section_safe t c w :
  inv c → caller_ok c t →
  ∃ t' c' w', section zero t (c, w) = Some (t', (c', w')) ∧
    inv c' ∧ caller_ok c' t' ∧
    (∀ el, is_Some (mem c !! el) → is_Some (mem c' !! el)).
Proof.
  intros Hinv Hok. destruct t as [cls [|el|el] res];
    unfold section, caller_ok in *; simpl in *.
  - destruct cls as [|cl cls]; [by eexists _, _, _|].
    assert (∃ t' c' w',
              (s' ← do_call zero cl (c, w);
               Some (Caller cls AtCall res, s')) = Some (t', (c', w')) ∧
              inv c' ∧ caller_ok c' t' ∧
              (∀ el, is_Some (mem c !! el) → is_Some (mem c' !! el)))
      as Hcall.
    { destruct (do_call_inv cl c w Hinv) as (c' & w' & Hcall & Hinv' & _).
      rewrite Hcall. simpl. eexists _, c', w'. split; [done|].
      split; [done|]. split; [done|].
      intros el. by apply (do_call_keeps_alloc cl c w c' w'). }
    destruct cl as [k|k v| |fn]; try exact Hcall.
    unfold Get_lookup. destruct (idx c !! k) as [el|] eqn:Hidx.
    + eexists _, _, _. split; [done|]. split; [done|]. split; [|done].
      simpl. destruct Hinv as [Hwf _].
      destruct (wf_idx _ Hwf _ _ Hidx) as (_ & v & Hmem). by eexists.
    + by eexists _, _, _.
  - eexists _, _, _. split; [done|]. split; [|done].
    destruct Hinv as [Hwf [Hcap Hlen]]. split; [by apply wf_promote|].
    split; [done|]. unfold Len, golist.Len in *. simpl.
    by rewrite (MoveToFront_length _ _ (wf_nodup _ Hwf)).
  - unfold Get_read. destruct Hok as [ent Hent]. rewrite Hent. simpl.
    by eexists _, _, _.
Qed.

Lemma interleave_safe sch ts c w :
  inv c → Forall (caller_ok c) ts →
  ∃ ts' c' w', interleave zero sch (ts, (c, w)) = Some (ts', (c', w')) ∧
    inv c' ∧ Forall (caller_ok c') ts'.
Proof.
  revert ts c w. induction sch as [|i sch IH]; intros ts c w Hinv Hts.
  - by exists ts, c, w.
  - simpl. unfold sched. simpl.
    destruct (ts !! i) as [t|] eqn:Hi; [|by apply IH].
    destruct (section_safe t c w Hinv) as (t' & c' & w' & Hsec & Hinv' & Hok' & Hmono).
    { by apply (Forall_lookup_1 _ _ _ _ Hts Hi). }
    rewrite Hsec. simpl. apply IH; [done|].
    apply Forall_insert; [|done].
    eapply Forall_impl; [exact Hts|]. intros t0 Ht0.
    unfold caller_ok in *. destruct (at_pc t0); [done|by apply Hmono..].
Qed.

Lemma run_reaches_inv capacity c0 cls w0 c w :
  NewLRU capacity = (Some c0, None) →
  run zero cls (c0, w0) = Some (c, w) → inv c.
Proof.
  intros (-> & Hinv & _)%NewLRU_inv Hrun.
  destruct (run_inv cls _ w0 Hinv) as (c' & w' & Hrun' & Hinv' & _).
  rewrite Hrun in Hrun'. by injection Hrun' as -> _.
Qed.

(** ** The properties of the specification *)

(** C7: [NewLRU] with a capacity of zero or less returns no cache and
    the invalid-capacity error; with a capacity of one or more it returns
    an empty cache ([Len] is 0, no element, no key) of that capacity and
    no error, and no run of calls changes the capacity afterwards. *)
Theorem NewLRU_capacity capacity :
  ((capacity ≤ 0)%Z →
     NewLRU (K:=K) (V:=V) (W:=W) capacity = (None, Some InvalidCapacity)) ∧
  ((1 ≤ capacity)%Z →
     ∃ c, NewLRU capacity = (Some c, None) ∧
       Len c = 0%Z ∧ lst c = [] ∧ idx c = ∅ ∧ cap c = capacity ∧
       ∀ cls w, ∃ c' w',
         run zero cls (c, w) = Some (c', w') ∧ cap c' = capacity).
Proof.
  split; intros Hcap.
  - unfold NewLRU. case_decide; [done|lia].
  - eexists. split; [by apply NewLRU_ok|]. do 4 (split; [done|]).
    intros cls w.
    destruct (run_inv cls (MkLRU capacity golist.New ∅ ∅ None) w)
      as (c' & w' & Hrun & _ & Hcap').
    { split; [apply wf_empty|]. unfold bounded, Len, golist.Len. simpl. lia. }
    by exists c', w'.
Qed.

(** C8: [Get] of a key that is not in the index returns found = false
    and the cache it was given, unchanged in every field; it returns
    normally (no panic, and [Get] has no error result). *)
Theorem Get_absent_unchanged c k :
  idx c !! k = None → ∃ v, Get zero c k = Some (v, false, c).
Proof. intros Hidx. exists zero. by apply Get_miss. Qed.

(** C10: the value [Get] returns for a key that is not in the index is
    the zero value of the value type, with found = false. *)
Theorem Get_absent_zero c k :
  idx c !! k = None → ∃ c', Get zero c k = Some (zero, false, c').
Proof. intros Hidx. exists c. by apply Get_miss. Qed.

(** C6: in a well-formed cache, [Get] of a resident key moves the key's
    element to the front of the recency list, the other elements keeping
    their order, and returns the value stored for the key with
    found = true; the length, the index, the stored entries and so the
    binding of every key are unchanged, and the entries of the list are
    the same up to order. *)
Theorem Get_resident c k el :
  wf c → idx c !! k = Some el →
  ∃ v c', bound c k = Some v ∧
    Get zero c k = Some (v, true, c') ∧
    lst c' = el :: golist.unlink el (lst c) ∧
    Len c' = Len c ∧ idx c' = idx c ∧ mem c' = mem c ∧
    (∀ k', bound c' k' = bound c k') ∧
    entries c' ≡ₚ entries c ∧
    cap c' = cap c ∧ onEvict c' = onEvict c.
Proof.
  intros Hwf Hidx. destruct (Get_hit c k el Hwf Hidx) as (v & Hmem & HGet).
  destruct (wf_idx _ Hwf _ _ Hidx) as (Hin & _).
  pose proof (wf_nodup _ Hwf) as Hnd.
  eexists v, _. split; [|split; [exact HGet|]].
  { unfold bound. rewrite Hidx. simpl. by rewrite Hmem. }
  simpl. split; [done|]. split.
  { unfold Len, golist.Len. simpl. by rewrite unlink_length. }
  do 3 (split; [done|]). split; [|done].
  unfold entries. simpl lst. simpl mem.
  rewrite <- (MoveToFront_linked el (lst c) Hnd Hin).
  by rewrite (MoveToFront_perm el (lst c) Hnd).
Qed.

(** C5: in a well-formed cache of any capacity, [Put] of a resident key
    stores the new value in the key's own entry, moves its element to the
    front of the recency list, and leaves the index, the length, the
    bindings of the other keys and the world of the eviction callback
    unchanged: nothing is evicted and the callback is not called. *)
Theorem Put_resident_overwrites c k v w el :
  wf c → idx c !! k = Some el →
  ∃ c', Put c k v w = Some (c', w) ∧
    mem c' = <[el := Entry k v]> (mem c) ∧
    lst c' = el :: golist.unlink el (lst c) ∧
    idx c' = idx c ∧ Len c' = Len c ∧
    bound c' k = Some v ∧ (∀ k', k' ≠ k → bound c' k' = bound c k') ∧
    cap c' = cap c ∧ onEvict c' = onEvict c.
Proof.
  intros Hwf Hidx. eexists. split; [by apply Put_resident|]. simpl.
  destruct (wf_idx _ Hwf _ _ Hidx) as (Hin & _).
  do 3 (split; [done|]). split.
  { unfold Len, golist.Len. simpl.
    by rewrite (unlink_length _ _ (wf_nodup _ Hwf) Hin). }
  split.
  { unfold bound. simpl. rewrite Hidx. simpl. by rewrite lookup_insert_eq. }
  split; [|done]. intros k' Hne. unfold bound. simpl.
  destruct (idx c !! k') as [el'|] eqn:Hidx'; [|done]. simpl.
  rewrite lookup_insert_ne; [done|]. intros ->.
  destruct (wf_idx _ Hwf _ _ Hidx) as (_ & v1 & H1).
  destruct (wf_idx _ Hwf _ _ Hidx') as (_ & v2 & H2).
  rewrite H1 in H2. by injection H2.
Qed.

(** C2: in a well-formed cache of positive capacity, [Put] of a key that
    is not resident links a newly allocated element holding the pair at
    the front and binds the key to it in the index.  While the length
    was below the capacity nothing else happens.  Otherwise exactly the
    element at the back is unlinked, the key it holds (another key) is
    deleted from the index, and the world on return is the one the
    registered callback makes when called once on that key and its
    value (the same world when none is registered).  [Put] of a resident
    key and [Get] leave the world as it is: no callback runs. *)
Theorem Put_absent_inserts_and_evicts c k v w :
  wf c → (1 ≤ cap c)%Z → idx c !! k = None →
  mem c !! alloc (mem c) = None ∧
  ((Len c < cap c)%Z →
     Put c k v w =
       Some (MkLRU (cap c) (alloc (mem c) :: lst c)
               (<[alloc (mem c) := Entry k v]> (mem c))
               (<[k := alloc (mem c)]> (idx c)) (onEvict c), w)) ∧
  ((cap c ≤ Len c)%Z →
     ∃ rest tail kv,
       lst c = rest ++ [tail] ∧ mem c !! tail = Some kv ∧
       idx c !! key kv = Some tail ∧ key kv ≠ k ∧
       Put c k v w =
         Some (MkLRU (cap c) (alloc (mem c) :: rest)
                 (<[alloc (mem c) := Entry k v]> (mem c))
                 (delete (key kv) (<[k := alloc (mem c)]> (idx c)))
                 (onEvict c),
               match onEvict c with
               | Some fn => fn (key kv) (val kv) w
               | None => w
               end)) ∧
  (∀ k0 v0 c' w',
     is_Some (idx c !! k0) → Put c k0 v0 w = Some (c', w') → w' = w) ∧
  (∀ k0 c' w',
     do_call zero (CallGet k0) (c, w) = Some (c', w') → w' = w).
Proof.
  intros Hwf Hcap Hidx. split; [apply alloc_fresh|].
  split; [intros Hroom; by apply Put_room|]. split; [|split].
  - intros Hfull.
    destruct (wf_back c Hwf) as (rest & tail & kv & Hrest & Hkv); [lia|].
    exists rest, tail, kv. split; [done|]. split; [done|].
    assert (idx c !! key kv = Some tail) as Htail.
    { apply (wf_lst _ Hwf); [|done]. rewrite Hrest.
      apply elem_of_app. right. left. }
    split; [done|]. split; [intros Heq; by rewrite Heq, Hidx in Htail|].
    destruct (onEvict c) eqn:Hfn;
      rewrite (Put_full c k v w rest tail kv) by done;
      by rewrite Hfn.
  - intros k0 v0 c' w' [el Hel] HPut.
    rewrite (Put_resident c k0 v0 w el Hwf Hel) in HPut. by injection HPut.
  - intros k0 c' w'. simpl. destruct (Get zero c k0); [|done].
    simpl. by intros [= _ <-].
Qed.

(** C1: from a cache that [NewLRU] returned for a capacity, every run of
    calls ([Get], [Put], [Len], [SetEvictionCallback] in any order) that
    ends in a [Put] returns, and [Len] is then at most the capacity. *)
Theorem Len_within_capacity capacity c0 cls k v w0 :
  NewLRU capacity = (Some c0, None) →
  ∃ c w, run zero (cls ++ [CallPut k v]) (c0, w0) = Some (c, w) ∧
    (Len c ≤ capacity)%Z.
Proof.
  intros (-> & Hinv & _)%NewLRU_inv.
  destruct (run_inv (cls ++ [CallPut k v]) _ w0 Hinv)
    as (c & w & Hrun & [_ [_ Hlen]] & Hcap).
  exists c, w. split; [done|]. simpl in Hcap. by rewrite <- Hcap.
Qed.

(** C4: from a cache that [NewLRU] returned, every run of calls returns
    a cache in which a key is in the index exactly when an element of
    the recency list holds it (the index binding the key to that very
    element), and in which no element and no key occurs twice in the
    list. *)
Theorem index_mirrors_list capacity c0 cls w0 :
  NewLRU capacity = (Some c0, None) →
  ∃ c w, run zero cls (c0, w0) = Some (c, w) ∧
    (∀ k, is_Some (idx c !! k) ↔
            ∃ el v, el ∈ lst c ∧ mem c !! el = Some (Entry k v)) ∧
    (∀ k el, idx c !! k = Some el ↔
            el ∈ lst c ∧ ∃ v, mem c !! el = Some (Entry k v)) ∧
    (∀ k, is_Some (idx c !! k) ↔ k ∈ keys c) ∧
    NoDup (lst c) ∧ NoDup (keys c) ∧
    length (keys c) = length (lst c).
Proof.
  intros (-> & Hinv & _)%NewLRU_inv.
  destruct (run_inv cls _ w0 Hinv) as (c & w & Hrun & [Hwf _] & _).
  exists c, w. split; [done|].
  assert (∀ k el, idx c !! k = Some el ↔
            el ∈ lst c ∧ ∃ v, mem c !! el = Some (Entry k v)) as Hiff.
  { intros k el. split; [apply (wf_idx _ Hwf)|].
    intros (Hin & v & Hmem). apply (wf_lst _ Hwf _ _ Hin Hmem). }
  split; [|split; [done|]].
  - intros k. split.
    + intros [el (Hin & v & Hmem)%Hiff]. by exists el, v.
    + intros (el & v & Hin & Hmem). exists el. apply Hiff. eauto.
  - split; [intros k; symmetry; by apply elem_of_keys|].
    split; [apply (wf_nodup _ Hwf)|]. split; [by apply keys_NoDup|].
    unfold keys. rewrite length_fmap. by apply entries_length.
Qed.

(** C3, as the code has it: in a new cache of capacity N, once distinct
    keys k1..kN are put in this order, [Put] of one more distinct key
    evicts k1 (and the callback, if set, is called on k1 and its value).
    When [Get] of k1 comes right before that [Put] and N is at least 2,
    k2 is evicted instead and k1 stays, second in the recency order;
    when N is 1, k1 is the only resident key and is evicted all the
    same. *)
Theorem recency_order capacity c0 fn k1 v1 rest k' v' w :
  NewLRU capacity = (Some c0, None) →
  Z.of_nat (length ((k1, v1) :: rest)) = capacity →
  NoDup (((k1, v1) :: rest).*1 ++ [k']) →
  (∃ s,
     run zero (CallSetEvictionCallback fn :: puts ((k1, v1) :: rest))
       (c0, w) = Some s ∧
     evicts s k' v' k1 ∧
     ∃ c', Put s.1 k' v' s.2 = Some (c', fire fn (Entry k1 v1) w) ∧
       keys c' = k' :: reverse rest.*1) ∧
  (∃ s,
     run zero
       ((CallSetEvictionCallback fn :: puts ((k1, v1) :: rest))
          ++ [CallGet k1]) (c0, w) = Some s ∧
     match rest with
     | [] =>
         evicts s k' v' k1 ∧
         ∃ c', Put s.1 k' v' s.2 = Some (c', fire fn (Entry k1 v1) w) ∧
           keys c' = [k']
     | (k2, v2) :: rest' =>
         evicts s k' v' k2 ∧
         ∃ c', Put s.1 k' v' s.2 = Some (c', fire fn (Entry k2 v2) w) ∧
           keys c' = k' :: k1 :: reverse rest'.*1
     end).
Proof.
  intros Hnew Hlen Hnd.
  apply NoDup_app in Hnd as (Hnd & Hdisj & _).
  assert (k' ∉ ((k1, v1) :: rest).*1) as Hk'.
  { intros Hin. apply (Hdisj _ Hin). left. }
  destruct (run_fill capacity c0 fn ((k1, v1) :: rest) w Hnew Hlen Hnd)
    as (c & Hrun & Hwf & Hes & Hcap & Hfn).
  apply NewLRU_inv in Hnew as (_ & _ & Hpos).
  simpl in Hes. rewrite reverse_cons in Hes.
  change (pair_entry (k1, v1)) with (Entry k1 v1) in Hes.
  assert (keys c = reverse rest.*1 ++ [k1]) as Hkeys.
  { unfold keys. rewrite Hes, fmap_app, fmap_reverse, keys_pair_entry.
    done. }
  assert (Len c = capacity) as HLen.
  { rewrite (wf_Len c Hwf), Hes, length_app, length_reverse, length_fmap.
    simpl in *. lia. }
  assert (k' ∉ keys c) as Hk'c.
  { rewrite Hkeys. intros Hin. apply Hk'. simpl.
    apply elem_of_app in Hin as [Hin|Hin].
    - right. rewrite elem_of_reverse in Hin. exact Hin.
    - apply list_elem_of_singleton in Hin as ->. left. }
  split.
  - exists (c, w). split; [exact Hrun|].
    destruct (evicts_back c k' v' w (reverse (pair_entry <$> rest))
                (Entry k1 v1) Hwf)
      as (Hev & c' & HPut & Hkeys'); [lia|lia|done|done|].
    split; [exact Hev|]. exists c'. simpl. rewrite <- Hfn.
    split; [exact HPut|].
    by rewrite Hkeys', fmap_reverse, keys_pair_entry.
  - destruct (view_Get_hit c _ (Entry k1 v1) [] Hwf Hes)
      as (c2 & HGet & Hwf2 & Hes2 & Hcap2 & Hfn2).
    simpl in HGet. rewrite app_nil_r in Hes2.
    assert (Len c2 = capacity) as HLen2.
    { rewrite (wf_Len c2 Hwf2), Hes2. simpl.
      rewrite length_reverse, length_fmap. simpl in *. lia. }
    assert (k' ∉ keys c2) as Hk'c2.
    { unfold keys. rewrite Hes2. simpl.
      rewrite fmap_reverse, keys_pair_entry.
      intros Hin. apply Hk'. simpl.
      apply elem_of_cons in Hin as [->|Hin]; [left|right].
      rewrite elem_of_reverse in Hin. exact Hin. }
    exists (c2, w). split.
    { rewrite run_app, Hrun. simpl. by rewrite HGet. }
    destruct rest as [|[k2 v2] rest'].
    + simpl in Hes2.
      destruct (evicts_back c2 k' v' w [] (Entry k1 v1) Hwf2)
        as (Hev & c' & HPut & Hkeys'); [lia|lia|done|done|].
      split; [exact Hev|]. exists c'. simpl. rewrite <- Hfn, <- Hfn2.
      by split.
    + simpl in Hes2. rewrite reverse_cons in Hes2.
      change (pair_entry (k2, v2)) with (Entry k2 v2) in Hes2.
      destruct (evicts_back c2 k' v' w
                  (Entry k1 v1 :: reverse (pair_entry <$> rest'))
                  (Entry k2 v2) Hwf2)
        as (Hev & c' & HPut & Hkeys'); [lia|lia|done|done|].
      split; [exact Hev|]. exists c'. simpl. rewrite <- Hfn, <- Hfn2.
      split; [exact HPut|]. rewrite Hkeys'. simpl.
      by rewrite fmap_reverse, keys_pair_entry.
Qed.

(** ** Further properties of the code *)

Local Set Warnings "-clear-no-such-hyp".

(** A key is bound to a value exactly when the pair is among the
    entries. *)
Lemma bound_entries c k v :
  wf c → bound c k = Some v ↔ Entry k v ∈ entries c.
Proof.
  intros Hwf. pose proof (wf_holds c Hwf) as Hes. unfold bound. split.
  - destruct (idx c !! k) as [el|] eqn:Hidx; [|done]. simpl.
    destruct (wf_idx _ Hwf _ _ Hidx) as (Hin & v' & Hmem).
    rewrite Hmem. simpl. intros [= ->].
    apply list_elem_of_lookup in Hin as [i Hi].
    destruct (Forall2_lookup_l _ _ _ _ _ Hes Hi) as (ent & Hent & Hmem').
    rewrite Hmem in Hmem'. injection Hmem' as <-.
    apply list_elem_of_lookup. by exists i.
  - intros [i Hi]%list_elem_of_lookup.
    destruct (Forall2_lookup_r _ _ _ _ _ Hes Hi) as (el & Hel & Hmem).
    assert (idx c !! k = Some el) as Hidx.
    { apply (wf_lst _ Hwf el (Entry k v)); [|done].
      apply list_elem_of_lookup. by exists i. }
    rewrite Hidx. simpl. by rewrite Hmem.
Qed.

Lemma view_Put_resident c v w es1 e es2 :
  wf c → entries c = es1 ++ e :: es2 →
  ∃ c', Put c (key e) v w = Some (c', w) ∧ wf c' ∧
    entries c' = Entry (key e) v :: es1 ++ es2 ∧
    cap c' = cap c ∧ onEvict c' = onEvict c.
Proof.
  intros Hwf Hes. pose proof (wf_holds c Hwf) as Hholds.
  rewrite Hes in Hholds.
  apply holds_split in Hholds as (l1 & el & l2 & Hlst & Hl1 & Hel & Hl2).
  pose proof (wf_nodup _ Hwf) as Hnd. rewrite Hlst in Hnd.
  assert (idx c !! key e = Some el) as Hidx.
  { apply (wf_lst _ Hwf); [|done]. rewrite Hlst.
    apply elem_of_app. right. left. }
  destruct (Put_wf c (key e) v w Hwf) as (c' & w' & HPut & Hwf' & _).
  rewrite (Put_resident c (key e) v w el Hwf Hidx) in HPut.
  injection HPut as <- <-.
  eexists. split; [by apply Put_resident|]. split; [done|]. split; [|done].
  apply holds_entries. simpl. rewrite Hlst, unlink_middle by done.
  apply NoDup_app in Hnd as (_ & Hdisj & Hnd2).
  apply NoDup_cons in Hnd2 as [Hnot2 _].
  constructor; [by rewrite lookup_insert_eq|]. apply holds_insert.
  - intros [Hin|Hin]%elem_of_app; [|done]. apply (Hdisj _ Hin). left.
  - by apply Forall2_app.
Qed.

(** The keys of the index are those of the list, each once. *)
Lemma keys_dom c : wf c → keys c ≡ₚ elements (dom (idx c)).
Proof.
  intros Hwf. apply NoDup_Permutation.
  - by apply keys_NoDup.
  - apply NoDup_elements.
  - intros k. rewrite elem_of_elements, elem_of_dom. by apply elem_of_keys.
Qed.

Lemma filter_key_absent es k :
  k ∉ key <$> es → filter (λ e, key e ≠ k) es = es.
Proof.
  induction es as [|e es IH]; intros Hnot; [done|].
  simpl in Hnot. apply not_elem_of_cons in Hnot as [Hne Hnot].
  rewrite filter_cons_True by congruence. by rewrite IH.
Qed.

Lemma filter_key_split es1 e es2 :
  NoDup (key <$> (es1 ++ e :: es2)) →
  filter (λ x, key x ≠ key e) (es1 ++ e :: es2) = es1 ++ es2.
Proof.
  rewrite fmap_app. simpl. intros Hnd.
  apply NoDup_app in Hnd as (_ & Hdisj & Hnd2).
  apply NoDup_cons in Hnd2 as [Hnot2 _].
  rewrite filter_app, filter_cons_False by tauto.
  rewrite !filter_key_absent; [done|done|].
  intros Hin. apply (Hdisj _ Hin). left.
Qed.

Lemma entries_snoc c :
  wf c → (1 ≤ Len c)%Z → ∃ es e, entries c = es ++ [e].
Proof.
  intros Hwf Hlen. rewrite (wf_Len c Hwf) in Hlen.
  destruct (last (entries c)) as [e|] eqn:Hlast.
  - apply last_Some in Hlast as [es Hes]. by exists es, e.
  - apply last_None in Hlast. rewrite Hlast in Hlen. simpl in Hlen. lia.
Qed.

(** What [Put] does to the entries: the pair comes first, the other
    entries follow in their order, cut to the capacity. *)
Lemma Put_view c k v w :
  inv c →
  ∃ c' w', Put c k v w = Some (c', w') ∧ inv c' ∧
    cap c' = cap c ∧ onEvict c' = onEvict c ∧
    entries c' =
      Entry k v ::
        take (Z.to_nat (cap c) - 1) (filter (λ e, key e ≠ k) (entries c)).
Proof.
  intros [Hwf Hb]. pose proof Hb as [Hcap Hlen].
  pose proof (wf_Len c Hwf) as HLen.
  assert (∀ c' w', Put c k v w = Some (c', w') → wf c' → inv c') as Hinv.
  { intros c' w' HPut Hwf'. split; [done|].
    by apply (Put_bounded c k v w c' w'). }
  destruct (decide (k ∈ keys c)) as [Hin|Hnot].
  - apply list_elem_of_fmap in Hin as (e & -> & He).
    apply list_elem_of_split in He as (es1 & es2 & Hes).
    destruct (view_Put_resident c v w es1 e es2 Hwf Hes)
      as (c' & HPut & Hwf' & Hes' & Hcap' & Hfn').
    exists c', w. split; [done|]. split; [by apply (Hinv c' w)|].
    do 2 (split; [done|]). rewrite Hes', Hes. f_equal.
    rewrite filter_key_split
      by (rewrite <- Hes; apply (keys_NoDup c Hwf)).
    rewrite take_ge; [done|].
    rewrite Hes, !length_app in HLen. rewrite length_app.
    simpl in HLen. lia.
  - assert (idx c !! k = None) as Hidx.
    { apply eq_None_not_Some. by rewrite <- (elem_of_keys c k Hwf). }
    rewrite (filter_key_absent _ k Hnot).
    destruct (decide (Len c < cap c)%Z) as [Hroom|Hfull].
    + destruct (view_Put_room c k v w Hwf Hidx Hroom)
        as (c' & HPut & Hwf' & Hes' & Hcap' & Hfn').
      exists c', w. split; [done|]. split; [by apply (Hinv c' w)|].
      do 2 (split; [done|]). rewrite Hes'. f_equal.
      rewrite take_ge; [done|lia].
    + destruct (entries_snoc c Hwf) as (es & e & Hes); [lia|].
      destruct (view_Put_full c k v w es e Hwf Hidx) as
        (c' & HPut & Hwf' & Hes' & Hcap' & Hfn'); [lia|done|].
      eexists c', _. split; [exact HPut|].
      split; [by apply (Hinv c' _ HPut)|].
      do 2 (split; [done|]). rewrite Hes', Hes. f_equal.
      rewrite take_app_length'; [done|].
      rewrite Hes, length_app in HLen. simpl in HLen. lia.
Qed.

(** [Get] of the key at the front changes nothing. *)
Lemma Get_front_view c k v es :
  wf c → entries c = Entry k v :: es → Get zero c k = Some (v, true, c).
Proof.
  intros Hwf Hes. pose proof (wf_holds c Hwf) as Hholds.
  rewrite Hes in Hholds.
  apply (holds_split _ _ []) in Hholds
    as (l1 & el & l2 & Hlst & Hl1 & Hel & Hl2).
  apply Forall2_nil_inv_r in Hl1 as ->. simpl in Hlst.
  assert (idx c !! k = Some el) as Hidx.
  { apply (wf_lst _ Hwf el (Entry k v)); [|done]. rewrite Hlst. left. }
  destruct (Get_hit c k el Hwf Hidx) as (v' & Hmem & HGet).
  rewrite Hel in Hmem. injection Hmem as <-. rewrite HGet.
  pose proof (wf_nodup _ Hwf) as Hnd. rewrite Hlst in *.
  pose proof (unlink_middle el [] l2 Hnd) as Hu. simpl in Hu.
  rewrite Hu. clear Hnd. rewrite <- Hlst. by destruct c.
Qed.

(** What [Get] of a resident key does to the entries. *)
Lemma Get_view c k :
  wf c → k ∈ keys c →
  ∃ v c', bound c k = Some v ∧ Get zero c k = Some (v, true, c') ∧
    wf c' ∧ cap c' = cap c ∧ onEvict c' = onEvict c ∧
    entries c' = Entry k v :: filter (λ e, key e ≠ k) (entries c).
Proof.
  intros Hwf (e & -> & He)%list_elem_of_fmap.
  apply list_elem_of_split in He as (es1 & es2 & Hes).
  destruct (view_Get_hit c es1 e es2 Hwf Hes)
    as (c' & HGet & Hwf' & Hes' & Hcap' & Hfn').
  exists (val e), c'. split.
  { apply (bound_entries c _ _ Hwf). rewrite Hes.
    apply elem_of_app. right. destruct e. left. }
  split; [done|]. do 3 (split; [done|]). rewrite Hes', Hes.
  rewrite filter_key_split by (rewrite <- Hes; apply (keys_NoDup c Hwf)).
  by destruct e.
Qed.

Lemma keys_filter es k :
  key <$> filter (λ e, key e ≠ k) es = filter (λ k', k' ≠ k) (key <$> es).
Proof.
  induction es as [|e es IH]; [done|].
  destruct (decide (key e = k)) as [Heq|Hne].
  - rewrite filter_cons_False by (intros Hn; by apply Hn).
    rewrite fmap_cons, filter_cons_False by (intros Hn; by apply Hn).
    exact IH.
  - rewrite filter_cons_True by done.
    rewrite !fmap_cons, filter_cons_True by done. by rewrite IH.
Qed.

(** X1: in a well-formed cache of positive capacity, [Put] returns a cache
    in which [Get] of the same key finds the value just put and, the key
    being at the front already, changes nothing. *)
Theorem Put_then_Get c k v w :
  inv c →
  ∃ c1 w1, Put c k v w = Some (c1, w1) ∧
    Get zero c1 k = Some (v, true, c1).
Proof.
  intros Hinv.
  destruct (Put_view c k v w Hinv) as (c1 & w1 & HPut & [Hwf1 _] & _ & _ & Hes).
  exists c1, w1. split; [done|]. by eapply Get_front_view.
Qed.

Lemma Len_size_idx c : wf c → Len c = Z.of_nat (size (idx c)).
Proof.
  intros Hwf. rewrite (wf_Len c Hwf). f_equal.
  rewrite <- (size_dom (idx c)).
  change (size (dom (idx c))) with (length (elements (dom (idx c)))).
  rewrite <- (keys_dom c Hwf). unfold keys. by rewrite length_fmap.
Qed.

(** X2: after every run of calls on a cache that [NewLRU] returned, [Len],
    the length of the recency list, is the number of keys in the index. *)
Theorem Len_counts_index capacity c0 cls w0 c w :
  NewLRU capacity = (Some c0, None) →
  run zero cls (c0, w0) = Some (c, w) →
  Len c = Z.of_nat (size (idx c)).
Proof.
  intros Hnew Hrun. apply Len_size_idx.
  by destruct (run_reaches_inv capacity c0 cls w0 c w Hnew Hrun).
Qed.

(** X3: in a well-formed cache, a [Get] repeated at once returns the same
    result and leaves the cache as the first [Get] left it. *)
Theorem Get_twice c k v b c' :
  wf c → Get zero c k = Some (v, b, c') → Get zero c' k = Some (v, b, c').
Proof.
  intros Hwf HGet. destruct (idx c !! k) as [el|] eqn:Hidx.
  - assert (k ∈ keys c) as Hin by (apply (elem_of_keys c k Hwf); eauto).
    destruct (Get_view c k Hwf Hin) as (v1 & c1 & _ & HGet1 & Hwf1 & _ & _ & Hes).
    rewrite HGet in HGet1. injection HGet1 as -> -> ->.
    by eapply Get_front_view.
  - rewrite (Get_miss c k Hidx) in HGet. injection HGet as <- <- <-.
    by apply Get_miss.
Qed.


(** X5: the recency order after [Put], in a well-formed cache within its
    positive capacity: the key put comes first, the other keys follow in
    the order they had, and the list is cut to the capacity. *)
Theorem keys_after_Put c k v w c' w' :
  inv c → Put c k v w = Some (c', w') →
  keys c' =
    k :: take (Z.to_nat (cap c) - 1) (filter (λ k', k' ≠ k) (keys c)).
Proof.
  intros Hinv HPut.
  destruct (Put_view c k v w Hinv) as (c1 & w1 & HPut1 & _ & _ & _ & Hes).
  rewrite HPut in HPut1. injection HPut1 as <- <-.
  unfold keys. rewrite Hes. simpl. by rewrite fmap_take, keys_filter.
Qed.

(** X6: the recency order after [Get], in a well-formed cache: a key that
    is found comes first and the other keys follow in the order they had;
    a miss leaves the order as it is. *)
Theorem keys_after_Get c k v b c' :
  wf c → Get zero c k = Some (v, b, c') →
  keys c' = if b then k :: filter (λ k', k' ≠ k) (keys c) else keys c.
Proof.
  intros Hwf HGet. destruct (idx c !! k) as [el|] eqn:Hidx.
  - assert (k ∈ keys c) as Hin by (apply (elem_of_keys c k Hwf); eauto).
    destruct (Get_view c k Hwf Hin) as (v1 & c1 & _ & HGet1 & _ & _ & _ & Hes).
    rewrite HGet in HGet1. injection HGet1 as -> -> ->.
    unfold keys. rewrite Hes. simpl. by rewrite keys_filter.
  - rewrite (Get_miss c k Hidx) in HGet. by injection HGet as <- <- <-.
Qed.

Lemma Put_Len c k v w c' w' :
  inv c → Put c k v w = Some (c', w') → (Len c ≤ Len c')%Z.
Proof.
  intros [Hwf [Hcap Hlen]] HPut.
  destruct (idx c !! k) as [el|] eqn:Hidx.
  - rewrite (Put_resident c k v w el Hwf Hidx) in HPut.
    injection HPut as <- _. unfold Len, golist.Len in *. simpl.
    destruct (wf_idx _ Hwf _ _ Hidx) as (Hin & _).
    rewrite (unlink_length _ _ (wf_nodup _ Hwf) Hin). lia.
  - destruct (decide (Len c < cap c)%Z) as [Hroom|Hfull].
    + rewrite (Put_room c k v w Hidx Hroom) in HPut.
      injection HPut as <- _. unfold Len, golist.Len in *. simpl in *. lia.
    + destruct (wf_back c Hwf) as (rest & tail & kv & Hrest & Hkv); [lia|].
      rewrite (Put_full c k v w rest tail kv Hwf Hidx) in HPut
        by (done || lia).
      injection HPut as <- _. unfold Len, golist.Len in *. simpl in *.
      rewrite Hrest, length_app. simpl. lia.
Qed.

Lemma do_call_Len cl c w c' w' :
  inv c → do_call zero cl (c, w) = Some (c', w') → (Len c ≤ Len c')%Z.
Proof.
  intros Hinv. destruct cl as [k|k v| |fn]; simpl.
  - destruct Hinv as [Hwf _]. destruct (idx c !! k) as [el|] eqn:Hidx.
    + destruct (Get_hit c k el Hwf Hidx) as (v & _ & ->). simpl.
      intros [= <- _]. unfold Len, golist.Len. simpl.
      destruct (wf_idx _ Hwf _ _ Hidx) as (Hin & _).
      rewrite (unlink_length _ _ (wf_nodup _ Hwf) Hin). lia.
    + rewrite (Get_miss c k Hidx). simpl. intros [= <- _]. lia.
  - by apply Put_Len.
  - intros [= <- _]. lia.
  - intros [= <- _]. unfold Len. simpl. lia.
Qed.

(** X7: entries leave the cache only to make room.  Along every run of
    calls from a well-formed cache within its capacity, [Len] does not
    decrease and does not pass the capacity; a full cache stays full. *)
Theorem Len_never_decreases cls c w c' w' :
  inv c → run zero cls (c, w) = Some (c', w') →
  (Len c ≤ Len c' ≤ cap c)%Z.
Proof.
  revert c w. induction cls as [|cl cls IH]; intros c w Hinv Hrun.
  - injection Hrun as <- _. destruct Hinv as [_ [_ Hlen]]. lia.
  - simpl in Hrun.
    destruct (do_call_inv cl c w Hinv) as (c1 & w1 & Hcall & Hinv1 & Hcap1).
    rewrite Hcall in Hrun. simpl in Hrun.
    pose proof (do_call_Len cl c w c1 w1 Hinv Hcall) as H1.
    pose proof (IH c1 w1 Hinv1 Hrun) as H2. lia.
Qed.

(** X8: [Put] of a key does not touch the value of another key: a key
    still bound after the [Put] is bound to the value it had. *)
Theorem Put_keeps_other_values c k v w c' w' k' v' :
  inv c → Put c k v w = Some (c', w') → k' ≠ k →
  bound c' k' = Some v' → bound c k' = Some v'.
Proof.
  intros Hinv HPut Hne Hbound.
  destruct (Put_view c k v w Hinv) as (c1 & w1 & HPut1 & [Hwf1 _] & _ & _ & Hes).
  rewrite HPut in HPut1. injection HPut1 as <- <-.
  destruct Hinv as [Hwf _].
  apply (bound_entries c' k' v' Hwf1) in Hbound. rewrite Hes in Hbound.
  apply (bound_entries c k' v' Hwf).
  apply elem_of_cons in Hbound as [[= -> _]|Hin]; [done|].
  apply elem_of_take in Hin as (i & Hi & _).
  apply list_elem_of_lookup_2 in Hi.
  by apply list_elem_of_filter in Hi as [_ Hi].
Qed.

(** In a cache with room for two, the key at the front outlives the
    [Put] of another key. *)
Lemma front_survives c k v es k2 v2 w c' w' :
  inv c → (2 ≤ cap c)%Z → entries c = Entry k v :: es → k2 ≠ k →
  Put c k2 v2 w = Some (c', w') → bound c' k = Some v.
Proof.
  intros Hinv Hcap Hes Hne HPut.
  destruct (Put_view c k2 v2 w Hinv) as (c1 & w1 & HPut1 & [Hwf1 _] & _ & _ & Hes1).
  rewrite HPut in HPut1. injection HPut1 as <- <-.
  apply (bound_entries c' k v Hwf1). rewrite Hes1, Hes.
  rewrite filter_cons_True by (simpl; congruence).
  destruct (Z.to_nat (cap c) - 1) as [|n] eqn:Hn; [lia|].
  simpl. right. left.
Qed.

(** X9: a key just used is not the next victim.  In a well-formed cache
    of capacity at least 2, a key that was put, or found by [Get], is
    still bound to its value after the [Put] of another key that follows
    at once. *)
Theorem touched_key_survives c k k2 v2 :
  inv c → (2 ≤ cap c)%Z → k2 ≠ k →
  (∀ v w c1 w1 c2 w2,
     Put c k v w = Some (c1, w1) → Put c1 k2 v2 w1 = Some (c2, w2) →
     bound c2 k = Some v) ∧
  (∀ v w c1 c2 w2,
     Get zero c k = Some (v, true, c1) → Put c1 k2 v2 w = Some (c2, w2) →
     bound c2 k = Some v).
Proof.
  intros Hinv Hcap Hne. split.
  - intros v w c1 w1 c2 w2 HPut HPut2.
    destruct (Put_view c k v w Hinv)
      as (c1' & w1' & HPut1 & Hinv1 & Hcap1 & _ & Hes).
    rewrite HPut in HPut1. injection HPut1 as <- <-.
    eapply (front_survives c1 k v _ k2 v2 w1 c2 w2); try done. lia.
  - intros v w c1 c2 w2 HGet HPut2.
    destruct (do_call_inv (CallGet k) c w Hinv)
      as (c1' & w1' & Hcall & Hinv1 & Hcap1).
    simpl in Hcall. rewrite HGet in Hcall. simpl in Hcall.
    injection Hcall as <- <-.
    destruct Hinv as [Hwf _].
    assert (k ∈ keys c) as Hin.
    { apply (elem_of_keys c k Hwf).
      destruct (idx c !! k) eqn:Hidx; [by eexists|].
      rewrite (Get_miss c k Hidx) in HGet. by injection HGet. }
    destruct (Get_view c k Hwf Hin) as (v1 & c1' & _ & HGet1 & _ & _ & _ & Hes).
    rewrite HGet in HGet1. injection HGet1 as <- <-.
    eapply (front_survives c1 k v _ k2 v2 w c2 w2); try done. lia.
Qed.

(** A [Put] that evicts nothing acts on the bindings as an update of a
    map, in silence. *)
Lemma Put_no_evict c k v w :
  inv c → is_Some (idx c !! k) ∨ (Len c < cap c)%Z →
  ∃ c1, Put c k v w = Some (c1, w) ∧ inv c1 ∧
    dom (idx c1) = {[k]} ∪ dom (idx c) ∧ cap c1 = cap c ∧
    ∀ k', bound c1 k' = if decide (k = k') then Some v else bound c k'.
Proof.
  intros [Hwf Hb] Hcase.
  assert (∀ c1, Put c k v w = Some (c1, w) → wf c1 →
            Entry k v ∈ entries c1 →
            (∀ k' x, k' ≠ k →
               Entry k' x ∈ entries c1 ↔ Entry k' x ∈ entries c) →
            inv c1 ∧
            ∀ k', bound c1 k' = if decide (k = k') then Some v else bound c k')
    as Hfin.
  { intros c1 HPut Hwf1 Hhead Hrest.
    split; [split; [done|by apply (Put_bounded c k v w c1 w)]|].
    intros k'. case_decide as Hk.
    - subst k'. by apply (bound_entries c1 k v Hwf1).
    - apply option_eq. intros x.
      rewrite (bound_entries c1 k' x Hwf1), (bound_entries c k' x Hwf).
      apply Hrest. congruence. }
  destruct (idx c !! k) as [el|] eqn:Hidx.
  - assert (k ∈ keys c) as Hin by (apply (elem_of_keys c k Hwf); eauto).
    apply list_elem_of_fmap in Hin as (e & Hk & He).
    apply list_elem_of_split in He as (es1 & es2 & Hes).
    destruct (view_Put_resident c v w es1 e es2 Hwf Hes)
      as (c1 & HPut & Hwf1 & Hes1 & Hcap1 & _).
    rewrite <- Hk in HPut, Hes1.
    exists c1. split; [done|].
    destruct (Hfin c1 HPut Hwf1) as [Hinv1 Hbound].
    { rewrite Hes1. left. }
    { intros k' x Hne. rewrite Hes1, Hes.
      rewrite elem_of_cons, !elem_of_app, elem_of_cons.
      split; [naive_solver|].
      intros [?|[<-|?]]; [by eauto| |by eauto]. simpl in Hk. congruence. }
    split; [done|]. split; [|by split].
    rewrite (Put_resident c k v w el Hwf Hidx) in HPut.
    injection HPut as <-. simpl.
    assert (k ∈ dom (idx c)) by (apply elem_of_dom; eauto). set_solver.
  - destruct Hcase as [[? ?]|Hroom]; [done|].
    destruct (view_Put_room c k v w Hwf Hidx Hroom)
      as (c1 & HPut & Hwf1 & Hes1 & Hcap1 & _).
    exists c1. split; [done|].
    destruct (Hfin c1 HPut Hwf1) as [Hinv1 Hbound].
    { rewrite Hes1. left. }
    { intros k' x Hne. rewrite Hes1, elem_of_cons.
      split; [naive_solver|by right]. }
    split; [done|]. split; [|by split].
    rewrite (Put_room c k v w Hidx Hroom) in HPut.
    injection HPut as <-. simpl. apply dom_insert_L.
Qed.

Lemma Get_keeps_bindings c k v b c' :
  Get zero c k = Some (v, b, c') → idx c' = idx c ∧ mem c' = mem c.
Proof.
  unfold Get, Get_read, Get_promote.
  destruct (Get_lookup c k) as [el|]; simpl.
  - destruct (mem c !! el); [|done]. simpl. by intros [= _ _ <-].
  - by intros [= _ _ <-].
Qed.

(** A run that puts no more keys than there is room for. *)
Lemma run_like_map cls c w :
  inv c →
  (Z.of_nat (size (dom (idx c) ∪ put_keys cls)) ≤ cap c)%Z →
  ∃ c', run zero cls (c, w) = Some (c', w) ∧
    ∀ k, bound c' k =
           match last_put cls k with Some v => Some v | None => bound c k end.
Proof.
  revert c. induction cls as [|cl cls IH]; intros c Hinv Hsize.
  { by exists c. }
  assert (∀ c1, do_call zero cl (c, w) = Some (c1, w) →
            dom (idx c1) ∪ put_keys cls = dom (idx c) ∪ put_keys (cl :: cls) →
            cap c1 = cap c →
            (∀ k, bound c1 k =
                    match cl with
                    | CallPut k' v =>
                        if decide (k' = k) then Some v else bound c k
                    | _ => bound c k
                    end) →
            inv c1 →
            ∃ c', run zero (cl :: cls) (c, w) = Some (c', w) ∧
              ∀ k, bound c' k =
                     match last_put (cl :: cls) k with
                     | Some v => Some v
                     | None => bound c k
                     end) as Hstep.
  { intros c1 Hcall Hdom Hcap1 Hbound Hinv1.
    destruct (IH c1 Hinv1) as (c' & Hrun & Hfinal).
    { by rewrite Hdom, Hcap1. }
    exists c'. simpl. rewrite Hcall. simpl. split; [done|].
    intros k. rewrite Hfinal, Hbound.
    destruct (last_put cls k); [done|]. destruct cl; try done.
    by case_decide. }
  destruct (do_call_inv cl c w Hinv) as (c1 & w1 & Hcall & Hinv1 & Hcap1).
  destruct cl as [k|k v| |fn].
  - simpl in Hcall. destruct (Get zero c k) as [[[v b] c2]|] eqn:HGet; [|done].
    simpl in Hcall. injection Hcall as <- <-.
    destruct (Get_keeps_bindings c k v b c2 HGet) as [Hidx Hmem].
    apply (Hstep c2); try done.
    + simpl. by rewrite HGet.
    + by rewrite Hidx.
    + intros k'. unfold bound. by rewrite Hidx, Hmem.
  - assert (put_keys (CallPut k v :: cls) = {[k]} ∪ put_keys cls) as Hkeys.
    { unfold put_keys. simpl. done. }
    destruct (Put_no_evict c k v w Hinv)
      as (c2 & HPut & Hinv2 & Hdom2 & Hcap2 & Hbound2).
    { destruct (idx c !! k) as [el|] eqn:Hidx; [left; by eexists|right].
      destruct Hinv as [Hwf _]. rewrite (Len_size_idx c Hwf).
      rewrite <- (size_dom (idx c)).
      assert (k ∉ dom (idx c)) as Hnot by by apply not_elem_of_dom.
      assert (size ({[k]} ∪ dom (idx c))
              ≤ size (dom (idx c) ∪ put_keys (CallPut k v :: cls)))
        as Hle.
      { apply subseteq_size. rewrite Hkeys. set_solver. }
      rewrite size_union, size_singleton in Hle by set_solver. lia. }
    apply (Hstep c2); try done.
    rewrite Hdom2, Hkeys. set_solver.
  - simpl in Hcall. injection Hcall as <- <-. by apply (Hstep c).
  - simpl in Hcall. injection Hcall as <- <-.
    by apply (Hstep (SetEvictionCallback c fn)).
Qed.

(** X10: a cache with room for every key behaves as a map.  When a run of
    calls on a new cache puts no more distinct keys than the capacity, it
    returns, nothing is evicted (no callback runs: the world is as
    before), and every key is bound to the value of its last [Put], or to
    nothing if it was never put. *)
Theorem run_within_capacity capacity c0 cls w0 :
  NewLRU capacity = (Some c0, None) →
  (Z.of_nat (size (put_keys cls)) ≤ capacity)%Z →
  ∃ c, run zero cls (c0, w0) = Some (c, w0) ∧
    ∀ k, bound c k = last_put cls k.
Proof.
  intros (-> & Hinv & _)%NewLRU_inv Hsize.
  destruct (run_like_map cls _ w0 Hinv) as (c & Hrun & Hbound).
  { simpl. rewrite dom_empty_L, (left_id_L ∅ (∪)). done. }
  exists c. split; [done|]. intros k. rewrite Hbound.
  by destruct (last_put cls k).
Qed.

(** No critical section changes the capacity. *)
Lemma section_cap t c w t' c' w' :
  inv c → section zero t (c, w) = Some (t', (c', w')) → cap c' = cap c.
Proof.
  intros Hinv. destruct t as [cls [|el|el] res]; unfold section; simpl.
  - destruct cls as [|cl cls]; [by intros [= _ <- _]|].
    assert ((s' ← do_call zero cl (c, w); Some (Caller cls AtCall res, s'))
            = Some (t', (c', w')) → cap c' = cap c) as Hcall.
    { destruct (do_call_inv cl c w Hinv) as (c1 & w1 & -> & _ & Hcap).
      simpl. by intros [= _ <- _]. }
    destruct cl as [k|k v| |fn]; try exact Hcall.
    destruct (Get_lookup c k); by intros [= _ <- _].
  - by intros [= _ <- _].
  - destruct (Get_read c el); [|done]. simpl. by intros [= _ <- _].
Qed.

Lemma interleave_cap sch ts c w ts' c' w' :
  inv c → Forall (caller_ok c) ts →
  interleave zero sch (ts, (c, w)) = Some (ts', (c', w')) → cap c' = cap c.
Proof.
  revert ts c w. induction sch as [|i sch IH]; intros ts c w Hinv Hts.
  - simpl. by intros [= _ <- _].
  - simpl. unfold sched. simpl.
    destruct (ts !! i) as [t|] eqn:Hi; [|by apply IH].
    destruct (section_safe t c w Hinv)
      as (t1 & c1 & w1 & Hsec & Hinv1 & Hok1 & Hmono).
    { by apply (Forall_lookup_1 _ _ _ _ Hts Hi). }
    rewrite Hsec. simpl. intros Hrest.
    rewrite <- (section_cap t c w t1 c1 w1 Hinv Hsec).
    apply (IH (<[i := t1]> ts) c1 w1); [done| |done].
    apply Forall_insert; [|done].
    eapply Forall_impl; [exact Hts|]. intros t0 Ht0.
    unfold caller_ok in *. destruct (at_pc t0); [done|by apply Hmono..].
Qed.

(** X11: with several callers, whatever the order of their critical
    sections.  From a cache that [NewLRU] returned and callers that are
    all between calls, every schedule runs without a panic and leaves a
    cache whose index and recency list mirror each other, of the same
    capacity, with [Len] at most the capacity. *)
Theorem interleavings_keep_invariants capacity c0 ts sch w :
  NewLRU capacity = (Some c0, None) →
  Forall (λ t, at_pc t = AtCall) ts →
  ∃ ts' c w',
    interleave zero sch (ts, (c0, w)) = Some (ts', (c, w')) ∧
    wf c ∧ cap c = capacity ∧ (Len c ≤ capacity)%Z.
Proof.
  intros (-> & Hinv & _)%NewLRU_inv Hts.
  assert (Forall (caller_ok (MkLRU capacity golist.New ∅ ∅ None : LRU)) ts)
    as Hok.
  { eapply Forall_impl; [exact Hts|]. intros t Ht.
    unfold caller_ok. by rewrite Ht. }
  destruct (interleave_safe sch ts _ w Hinv Hok)
    as (ts' & c & w' & Hrun & [Hwf [_ Hlen]] & _).
  pose proof (interleave_cap sch ts _ w ts' c w' Hinv Hok Hrun) as Hcap.
  simpl in Hcap. exists ts', c, w'. rewrite Hcap in Hlen.
  split; [done|]. split; [done|]. by split.
Qed.

(** X12: the callback in force is the one set last.  In a full
    well-formed cache, after [SetEvictionCallback], the [Put] of a key that
    is not resident makes the world that the new callback makes of the
    evicted pair; the callback set before is not called, and after
    [SetEvictionCallback(nil)] the world stays as it is. *)
Theorem SetEvictionCallback_takes_over c fn k v w es e :
  wf c → idx c !! k = None → (cap c ≤ Len c)%Z → entries c = es ++ [e] →
  ∃ c', Put (SetEvictionCallback c fn) k v w
          = Some (c', match fn with
                      | Some f => f (key e) (val e) w
                      | None => w
                      end) ∧
    onEvict c' = fn.
Proof.
  intros Hwf Hidx Hfull Hes.
  destruct (view_Put_full (SetEvictionCallback c fn) k v w es e)
    as (c' & HPut & _ & _ & _ & Hfn); try done.
  { by apply wf_onEvict. }
  exists c'. split; [|done]. rewrite HPut. simpl. by destruct fn.
Qed.

(** X13: when [Put] evicts.  In a well-formed cache within its positive
    capacity, [Put] of a key evicts a key exactly when the key put is not
    resident, the cache is full, and the evicted key is the last in the
    recency order; so a [Put] evicts at most one key, and none while there
    is room or when it overwrites. *)
Theorem evicts_iff c k v w k0 :
  inv c →
  evicts (c, w) k v k0 ↔
    idx c !! k = None ∧ Len c = cap c ∧ last (keys c) = Some k0.
Proof.
  intros [Hwf [Hcap Hlen]]. split.
  - intros (c' & w' & HPut & Hin & Hout). simpl in *.
    apply (elem_of_keys c k0 Hwf) in Hin.
    assert (wf c') as Hwf'.
    { destruct (Put_wf c k v w Hwf) as (c1 & w1 & HPut1 & Hwf1 & _).
      rewrite HPut in HPut1. by injection HPut1 as <- _. }
    assert (k0 ∉ keys c') as Hnot.
    { rewrite (elem_of_keys c' k0 Hwf'), Hout. by intros [? ?]. }
    destruct (decide (k ∈ keys c)) as [Hk|Hk].
    { exfalso. apply list_elem_of_fmap in Hk as (e & -> & He).
      apply list_elem_of_split in He as (es1 & es2 & Hes).
      destruct (view_Put_resident c v w es1 e es2 Hwf Hes)
        as (c1 & HPut1 & _ & Hes1 & _).
      rewrite HPut in HPut1. injection HPut1 as <- _.
      apply Hnot. unfold keys in *. rewrite Hes1. rewrite Hes in Hin.
      rewrite fmap_app in Hin. simpl in *. rewrite fmap_app.
      set_solver. }
    assert (idx c !! k = None) as Hidx.
    { apply eq_None_not_Some. by rewrite <- (elem_of_keys c k Hwf). }
    split; [done|].
    destruct (decide (Len c < cap c)%Z) as [Hroom|Hfull].
    { exfalso. destruct (view_Put_room c k v w Hwf Hidx Hroom)
        as (c1 & HPut1 & _ & Hes1 & _).
      rewrite HPut in HPut1. injection HPut1 as <- _.
      apply Hnot. unfold keys in *. rewrite Hes1. simpl. by right. }
    split; [lia|].
    destruct (entries_snoc c Hwf) as (es & e & Hes); [lia|].
    destruct (view_Put_full c k v w es e Hwf Hidx) as
      (c1 & HPut1 & _ & Hes1 & _); [lia|done|].
    rewrite HPut in HPut1. injection HPut1 as <- _.
    unfold keys in *. rewrite Hes1 in Hnot. rewrite Hes, fmap_app in Hin.
    rewrite Hes, fmap_app. simpl in *. rewrite last_snoc. f_equal.
    set_solver.
  - intros (Hidx & Hfull & Hlast).
    apply last_Some in Hlast as [ks Hks].
    destruct (entries_snoc c Hwf) as (es & e & Hes); [lia|].
    assert (key e = k0) as <-.
    { unfold keys in Hks. rewrite Hes, fmap_app in Hks. simpl in Hks.
      by apply app_inj_tail in Hks as [_ ?]. }
    apply (evicts_back c k v w es e Hwf); [done|lia| |done].
    rewrite (elem_of_keys c k Hwf), Hidx. by intros [? ?].
Qed.

End lru_facts.

(** ** The cache of the tests *)

Lemma two_keys_run :
  run "" [CallSetEvictionCallback (Some recorder);
          CallPut 1%Z "one"; CallPut 2%Z "two"] (new_cache 2 None, [])
  = Some (two_keys, []).
Proof. vm_compute. reflexivity. Qed.

Lemma two_keys_wf : wf two_keys.
Proof.
  eapply (run_reaches_inv "" 2 (new_cache 2 None)); [|apply two_keys_run].
  reflexivity.
Qed.

Lemma one_key_run :
  run "" [CallSetEvictionCallback (Some recorder); CallPut 1%Z "one"]
    (new_cache 1 None, [])
  = Some (one_key, []).
Proof. vm_compute. reflexivity. Qed.

Lemma one_key_wf : wf one_key.
Proof.
  eapply (run_reaches_inv "" 1 (new_cache 1 None)); [|apply one_key_run].
  reflexivity.
Qed.

(** ** The properties at work on the cache of the tests *)

Lemma NewLRU_capacity_witness :
  ((0 ≤ 0)%Z ∧
   NewLRU (K:=Z) (V:=string) (W:=list (Z * string)) 0
     = (None, Some InvalidCapacity)) ∧
  ((1 ≤ 2)%Z ∧
   ∃ c : LRU (K:=Z) (V:=string) (W:=list (Z * string)),
     NewLRU 2 = (Some c, None) ∧
     Len c = 0%Z ∧ lst c = [] ∧ idx c = ∅ ∧ cap c = 2%Z ∧
     ∀ cls w, ∃ c' w', run "" cls (c, w) = Some (c', w') ∧ cap c' = 2%Z).
Proof.
  split; (split; [lia|]).
  - apply (proj1 (NewLRU_capacity "" 0)). lia.
  - apply (proj2 (NewLRU_capacity "" 2)). lia.
Defined.

Lemma Get_absent_unchanged_witness :
  idx two_keys !! 3%Z = None ∧
  ∃ v, Get "" two_keys 3%Z = Some (v, false, two_keys).
Proof.
  split; [reflexivity|]. apply (Get_absent_unchanged "" two_keys 3%Z).
  reflexivity.
Defined.

Lemma Get_absent_zero_witness :
  idx two_keys !! 3%Z = None ∧
  ∃ c', Get "" two_keys 3%Z = Some ("", false, c').
Proof.
  split; [reflexivity|]. apply (Get_absent_zero "" two_keys 3%Z).
  reflexivity.
Defined.

Lemma Get_resident_witness :
  wf two_keys ∧ idx two_keys !! 1%Z = Some 0 ∧
  ∃ v c', bound two_keys 1%Z = Some v ∧
    Get "" two_keys 1%Z = Some (v, true, c') ∧
    lst c' = 0 :: golist.unlink 0 (lst two_keys) ∧
    Len c' = Len two_keys ∧ idx c' = idx two_keys ∧ mem c' = mem two_keys ∧
    (∀ k', bound c' k' = bound two_keys k') ∧
    entries c' ≡ₚ entries two_keys ∧
    cap c' = cap two_keys ∧ onEvict c' = onEvict two_keys.
Proof.
  split; [apply two_keys_wf|]. split; [reflexivity|].
  apply (Get_resident "" two_keys 1%Z 0); [apply two_keys_wf|reflexivity].
Defined.

Lemma Put_resident_overwrites_witness :
  wf two_keys ∧ idx two_keys !! 1%Z = Some 0 ∧
  ∃ c', Put two_keys 1%Z "uno" [] = Some (c', []) ∧
    mem c' = <[0 := Entry 1%Z "uno"]> (mem two_keys) ∧
    lst c' = 0 :: golist.unlink 0 (lst two_keys) ∧
    idx c' = idx two_keys ∧ Len c' = Len two_keys ∧
    bound c' 1%Z = Some "uno" ∧
    (∀ k', k' ≠ 1%Z → bound c' k' = bound two_keys k') ∧
    cap c' = cap two_keys ∧ onEvict c' = onEvict two_keys.
Proof.
  split; [apply two_keys_wf|]. split; [reflexivity|].
  apply (Put_resident_overwrites two_keys 1%Z "uno" [] 0);
    [apply two_keys_wf|reflexivity].
Defined.

Lemma Len_within_capacity_witness :
  NewLRU 2 = (Some (new_cache 2 None), None) ∧
  ∃ c w,
    run ""
      ([CallPut 1%Z "one"; CallPut 2%Z "two"; CallGet 1%Z]
         ++ [CallPut 3%Z "three"]) (new_cache 2 None, [])
    = Some (c, w) ∧ (Len c ≤ 2)%Z.
Proof.
  split; [reflexivity|].
  apply (Len_within_capacity "" 2 (new_cache 2 None)). reflexivity.
Defined.

Lemma index_mirrors_list_witness :
  NewLRU 2 = (Some (new_cache 2 None), None) ∧
  ∃ c w,
    run "" [CallPut 1%Z "one"; CallPut 2%Z "two"; CallGet 1%Z;
            CallPut 3%Z "three"; CallPut 1%Z "uno"] (new_cache 2 None, [])
    = Some (c, w) ∧
    (∀ k, is_Some (idx c !! k) ↔
            ∃ el v, el ∈ lst c ∧ mem c !! el = Some (Entry k v)) ∧
    (∀ k el, idx c !! k = Some el ↔
            el ∈ lst c ∧ ∃ v, mem c !! el = Some (Entry k v)) ∧
    (∀ k, is_Some (idx c !! k) ↔ k ∈ keys c) ∧
    NoDup (lst c) ∧ NoDup (keys c) ∧
    length (keys c) = length (lst c).
Proof.
  split; [reflexivity|].
  apply (index_mirrors_list "" 2 (new_cache 2 None)). reflexivity.
Defined.

Lemma Put_absent_inserts_and_evicts_witness :
  wf two_keys ∧ (1 ≤ cap two_keys)%Z ∧ idx two_keys !! 3%Z = None ∧
  mem two_keys !! alloc (mem two_keys) = None ∧
  ((Len two_keys < cap two_keys)%Z →
     Put two_keys 3%Z "three" [] =
       Some (MkLRU (cap two_keys) (alloc (mem two_keys) :: lst two_keys)
               (<[alloc (mem two_keys) := Entry 3%Z "three"]> (mem two_keys))
               (<[3%Z := alloc (mem two_keys)]> (idx two_keys))
               (onEvict two_keys), [])) ∧
  ((cap two_keys ≤ Len two_keys)%Z →
     ∃ rest tail kv,
       lst two_keys = rest ++ [tail] ∧ mem two_keys !! tail = Some kv ∧
       idx two_keys !! key kv = Some tail ∧ key kv ≠ 3%Z ∧
       Put two_keys 3%Z "three" [] =
         Some (MkLRU (cap two_keys) (alloc (mem two_keys) :: rest)
                 (<[alloc (mem two_keys) := Entry 3%Z "three"]> (mem two_keys))
                 (delete (key kv) (<[3%Z := alloc (mem two_keys)]> (idx two_keys)))
                 (onEvict two_keys),
               match onEvict two_keys with
               | Some fn => fn (key kv) (val kv) []
               | None => []
               end)) ∧
  (∀ k0 v0 c' w',
     is_Some (idx two_keys !! k0) → Put two_keys k0 v0 [] = Some (c', w') →
     w' = []) ∧
  (∀ k0 c' w',
     do_call "" (CallGet k0) (two_keys, []) = Some (c', w') → w' = []).
Proof.
  split; [apply two_keys_wf|]. split; [vm_compute; discriminate|].
  split; [reflexivity|].
  apply (Put_absent_inserts_and_evicts "" two_keys 3%Z "three" []);
    [apply two_keys_wf|vm_compute; discriminate|reflexivity].
Defined.

(** The callback of [two_keys] is called once, on the pair at the back. *)
Example Put_evicts_back_once :
  Put two_keys 3%Z "three" []
  = Some (MkLRU 2 [2; 1]
            {[0 := Entry 1%Z "one"; 1 := Entry 2%Z "two";
              2 := Entry 3%Z "three"]}
            {[2%Z := 1; 3%Z := 2]} (Some recorder),
          [(1%Z, "one")]).
Proof. vm_compute. reflexivity. Qed.

Lemma recency_order_witness :
  NewLRU 2 = (Some (new_cache 2 None), None) ∧
  Z.of_nat (length [(1%Z, "one"); (2%Z, "two")]) = 2%Z ∧
  NoDup ([(1%Z, "one"); (2%Z, "two")].*1 ++ [3%Z]) ∧
  (∃ s,
     run "" (CallSetEvictionCallback (Some recorder)
               :: puts [(1%Z, "one"); (2%Z, "two")])
       (new_cache 2 None, []) = Some s ∧
     evicts s 3%Z "three" 1%Z ∧
     ∃ c', Put s.1 3%Z "three" s.2
             = Some (c', fire (Some recorder) (Entry 1%Z "one") []) ∧
       keys c' = 3%Z :: reverse [(2%Z, "two")].*1) ∧
  (∃ s,
     run ""
       ((CallSetEvictionCallback (Some recorder)
           :: puts [(1%Z, "one"); (2%Z, "two")]) ++ [CallGet 1%Z])
       (new_cache 2 None, []) = Some s ∧
     evicts s 3%Z "three" 2%Z ∧
     ∃ c', Put s.1 3%Z "three" s.2
             = Some (c', fire (Some recorder) (Entry 2%Z "two") []) ∧
       keys c' = 3%Z :: 1%Z :: reverse ([] : list (Z * string)).*1).
Proof.
  split; [reflexivity|]. split; [reflexivity|].
  split; [apply (bool_decide_unpack _); vm_compute; exact I|].
  apply (recency_order "" 2 (new_cache 2 None) (Some recorder)
           1%Z "one" [(2%Z, "two")] 3%Z "three" []).
  - reflexivity.
  - reflexivity.
  - apply (bool_decide_unpack _). vm_compute. exact I.
Defined.

(** C3, as the specification states it, fails for capacity 1: after
    [Put(1, "one")] and [Get(1)], [Put(2, "two")] does not evict key 2,
    the second key, which is the one being put; it evicts key 1. *)
Lemma recency_order_capacity_one :
  ∃ s,
    NewLRU 1 = (Some (new_cache 1 None), None) ∧
    NoDup ([(1%Z, "one")].*1 ++ [2%Z]) ∧
    ([(1%Z, "one")].*1 ++ [2%Z]) !! 1 = Some 2%Z ∧
    run "" (puts [(1%Z, "one")] ++ [CallGet 1%Z]) (new_cache 1 None, [])
      = Some s ∧
    ¬ evicts s 2%Z "two" 2%Z ∧
    evicts s 2%Z "two" 1%Z.
Proof.
  eexists. split; [reflexivity|].
  split; [apply (bool_decide_unpack _); vm_compute; exact I|].
  split; [reflexivity|]. split; [vm_compute; reflexivity|]. split.
  - intros (c' & w' & _ & [el Hel] & _). vm_compute in Hel. discriminate.
  - unfold evicts. eexists _, _. split; [vm_compute; reflexivity|].
    split; [by eexists|]. vm_compute. reflexivity.
Qed.

(** C9: a [Get] that loses its key between its lookup and its promotion.
    On [two_keys], one caller runs the lookup of [Get(1)] and holds
    element 0; the other caller's [Put(3, "three")] then evicts key 1,
    the callback recording it; the first caller's promotion finds the
    element unlinked and changes nothing, and its [Get] returns
    ("one", true) for a key that is not in the cache.  Neither order of
    the two calls, run one after the other, gives that: [Get] first finds
    key 1 and makes [Put] evict key 2; [Put] first makes [Get] miss. *)
Theorem Get_finds_evicted_key :
  let evicted :=
    MkLRU 2 [2; 1]
      {[0 := Entry 1%Z "one"; 1 := Entry 2%Z "two"; 2 := Entry 3%Z "three"]}
      {[2%Z := 1; 3%Z := 2]} (Some recorder) in
  interleave "" [0; 1] (racing, (two_keys, []))
    = Some ([Caller [] (AtPromote 0) []; Caller [] AtCall []],
            (evicted, [(1%Z, "one")])) ∧
  idx evicted !! 1%Z = None ∧ keys evicted = [3%Z; 2%Z] ∧
  interleave "" [0; 1; 0; 0] (racing, (two_keys, []))
    = Some ([Caller [] AtCall [("one", true)]; Caller [] AtCall []],
            (evicted, [(1%Z, "one")])) ∧
  (∃ c w, run "" [CallGet 1%Z; CallPut 3%Z "three"] (two_keys, [])
            = Some (c, w) ∧ keys c = [3%Z; 1%Z] ∧ w = [(2%Z, "two")]) ∧
  (Put two_keys 3%Z "three" [] = Some (evicted, [(1%Z, "one")]) ∧
   Get "" evicted 1%Z = Some ("", false, evicted)).
Proof.
  vm_compute. repeat split. eexists _, _. repeat split.
Qed.

(** ** The further properties at work on the cache of the tests *)

Lemma two_keys_inv : inv two_keys.
Proof.
  eapply (run_reaches_inv "" 2 (new_cache 2 None)); [|apply two_keys_run].
  reflexivity.
Qed.

Lemma Put_then_Get_witness :
  inv two_keys ∧
  ∃ c1 w1, Put two_keys 3%Z "three" [] = Some (c1, w1) ∧
    Get "" c1 3%Z = Some ("three", true, c1).
Proof.
  split; [apply two_keys_inv|].
  apply (Put_then_Get "" two_keys 3%Z "three" []). apply two_keys_inv.
Defined.

Lemma Len_counts_index_witness :
  NewLRU 2 = (Some (new_cache 2 None), None) ∧
  run "" [CallSetEvictionCallback (Some recorder);
          CallPut 1%Z "one"; CallPut 2%Z "two"] (new_cache 2 None, [])
    = Some (two_keys, []) ∧
  Len two_keys = Z.of_nat (size (idx two_keys)).
Proof.
  split; [reflexivity|]. split; [apply two_keys_run|].
  apply (Len_counts_index "" 2 (new_cache 2 None)
           [CallSetEvictionCallback (Some recorder);
            CallPut 1%Z "one"; CallPut 2%Z "two"] [] two_keys []);
    [reflexivity|apply two_keys_run].
Defined.

Lemma Get_twice_witness :
  wf two_keys ∧
  ∃ c', Get "" two_keys 1%Z = Some ("one", true, c') ∧
    Get "" c' 1%Z = Some ("one", true, c').
Proof.
  split; [apply two_keys_wf|]. eexists.
  assert (Get "" two_keys 1%Z = Some ("one", true, _)) as HGet
    by (vm_compute; reflexivity).
  split; [exact HGet|].
  apply (Get_twice "" two_keys 1%Z "one" true _ two_keys_wf HGet).
Defined.

Lemma keys_after_Put_witness :
  inv two_keys ∧
  ∃ c' w', Put two_keys 3%Z "three" [] = Some (c', w') ∧
    keys c' =
      3%Z :: take (Z.to_nat (cap two_keys) - 1)
               (filter (λ k', k' ≠ 3%Z) (keys two_keys)).
Proof.
  split; [apply two_keys_inv|]. eexists _, _.
  assert (Put two_keys 3%Z "three" [] = Some (_, _)) as HPut
    by (vm_compute; reflexivity).
  split; [exact HPut|].
  apply (keys_after_Put two_keys 3%Z "three" [] _ _ two_keys_inv HPut).
Defined.

Lemma keys_after_Get_witness :
  wf two_keys ∧
  ∃ c', Get "" two_keys 1%Z = Some ("one", true, c') ∧
    keys c' = 1%Z :: filter (λ k', k' ≠ 1%Z) (keys two_keys).
Proof.
  split; [apply two_keys_wf|]. eexists.
  assert (Get "" two_keys 1%Z = Some ("one", true, _)) as HGet
    by (vm_compute; reflexivity).
  split; [exact HGet|].
  apply (keys_after_Get "" two_keys 1%Z "one" true _ two_keys_wf HGet).
Defined.

Lemma Len_never_decreases_witness :
  inv two_keys ∧
  ∃ c' w',
    run "" [CallGet 1%Z; CallPut 3%Z "three"; CallPut 1%Z "uno"]
      (two_keys, []) = Some (c', w') ∧
    (Len two_keys ≤ Len c' ≤ cap two_keys)%Z.
Proof.
  split; [apply two_keys_inv|]. eexists _, _.
  assert (run "" [CallGet 1%Z; CallPut 3%Z "three"; CallPut 1%Z "uno"]
            (two_keys, []) = Some (_, _)) as Hrun
    by (vm_compute; reflexivity).
  split; [exact Hrun|].
  apply (Len_never_decreases "" _ two_keys [] _ _ two_keys_inv Hrun).
Defined.

Lemma Put_keeps_other_values_witness :
  inv two_keys ∧
  ∃ c' w', Put two_keys 3%Z "three" [] = Some (c', w') ∧
    2%Z ≠ 3%Z ∧ bound c' 2%Z = Some "two" ∧
    bound two_keys 2%Z = Some "two".
Proof.
  split; [apply two_keys_inv|]. eexists _, _.
  assert (Put two_keys 3%Z "three" [] = Some (_, _)) as HPut
    by (vm_compute; reflexivity).
  split; [exact HPut|]. split; [discriminate|].
  split; [vm_compute; reflexivity|].
  apply (Put_keeps_other_values two_keys 3%Z "three" [] _ _ 2%Z "two"
           two_keys_inv HPut); [discriminate|vm_compute; reflexivity].
Defined.

Lemma touched_key_survives_witness :
  inv two_keys ∧ (2 ≤ cap two_keys)%Z ∧ 3%Z ≠ 1%Z ∧
  (∀ v w c1 w1 c2 w2,
     Put two_keys 1%Z v w = Some (c1, w1) →
     Put c1 3%Z "three" w1 = Some (c2, w2) →
     bound c2 1%Z = Some v) ∧
  (∀ v w c1 c2 w2,
     Get "" two_keys 1%Z = Some (v, true, c1) →
     Put c1 3%Z "three" w = Some (c2, w2) →
     bound c2 1%Z = Some v).
Proof.
  split; [apply two_keys_inv|]. split; [vm_compute; discriminate|].
  split; [discriminate|].
  apply (touched_key_survives "" two_keys 1%Z 3%Z "three");
    [apply two_keys_inv|vm_compute; discriminate|discriminate].
Defined.

Lemma run_within_capacity_witness :
  NewLRU 2 = (Some (new_cache 2 None), None) ∧
  (Z.of_nat
     (size (put_keys
              [CallPut 1%Z "one"; CallGet 1%Z; CallPut 2%Z "two";
               CallPut 1%Z "uno"; CallSetEvictionCallback (Some recorder);
               CallPut 2%Z "dos"])) ≤ 2)%Z ∧
  ∃ c,
    run "" [CallPut 1%Z "one"; CallGet 1%Z; CallPut 2%Z "two";
            CallPut 1%Z "uno"; CallSetEvictionCallback (Some recorder);
            CallPut 2%Z "dos"] (new_cache 2 None, []) = Some (c, []) ∧
    ∀ k, bound c k =
           last_put
             [CallPut 1%Z "one"; CallGet 1%Z; CallPut 2%Z "two";
              CallPut 1%Z "uno"; CallSetEvictionCallback (Some recorder);
              CallPut 2%Z "dos"] k.
Proof.
  split; [reflexivity|]. split; [vm_compute; discriminate|].
  apply (run_within_capacity "" 2 (new_cache 2 None));
    [reflexivity|vm_compute; discriminate].
Defined.

Lemma interleavings_keep_invariants_witness :
  NewLRU 1 = (Some (new_cache 1 None), None) ∧
  Forall (λ t : caller (K:=Z) (V:=string) (W:=list (Z * string)),
            at_pc t = AtCall)
    [Caller [CallPut 1%Z "one"; CallGet 1%Z] AtCall [];
     Caller [CallPut 2%Z "two"] AtCall []] ∧
  ∃ ts' c w',
    interleave "" [0; 0; 1; 0; 0]
      ([Caller [CallPut 1%Z "one"; CallGet 1%Z] AtCall [];
        Caller [CallPut 2%Z "two"] AtCall []], (new_cache 1 None, []))
    = Some (ts', (c, w')) ∧
    wf c ∧ cap c = 1%Z ∧ (Len c ≤ 1)%Z.
Proof.
  split; [reflexivity|]. split; [by repeat constructor|].
  apply (interleavings_keep_invariants "" 1 (new_cache 1 None));
    [reflexivity|by repeat constructor].
Defined.

Lemma SetEvictionCallback_takes_over_witness :
  wf two_keys ∧ idx two_keys !! 3%Z = None ∧
  (cap two_keys ≤ Len two_keys)%Z ∧
  entries two_keys = [Entry 2%Z "two"] ++ [Entry 1%Z "one"] ∧
  ∃ c', Put (SetEvictionCallback two_keys None) 3%Z "three" []
          = Some (c', []) ∧
    onEvict c' = None.
Proof.
  split; [apply two_keys_wf|]. split; [reflexivity|].
  split; [vm_compute; discriminate|]. split; [vm_compute; reflexivity|].
  apply (SetEvictionCallback_takes_over two_keys None 3%Z "three" []
           [Entry 2%Z "two"] (Entry 1%Z "one"));
    [apply two_keys_wf|reflexivity|vm_compute; discriminate
    |vm_compute; reflexivity].
Defined.

Lemma evicts_iff_witness :
  inv two_keys ∧
  (evicts (two_keys, []) 3%Z "three" 1%Z ↔
     idx two_keys !! 3%Z = None ∧ Len two_keys = cap two_keys ∧
     last (keys two_keys) = Some 1%Z).
Proof.
  split; [apply two_keys_inv|].
  apply (evicts_iff two_keys 3%Z "three" [] 1%Z). apply two_keys_inv.
Defined.
